(** * Merkle tree of lab_2/merkle_tree.py: construction, proofs, verification

    The development embeds [MerkleNode] and [MerkleTree] of
    [src/lab_2/merkle_tree.py] as programs of a small state-and-exception
    monad over a store of Python objects, and proves the properties of the
    specification about those programs. *)

From Stdlib Require Import ZArith NArith Ascii String List Lia.
From stdpp Require Import base tactics option list strings gmap.

Local Open Scope Z_scope.

(** ** SHA-256 (FIPS 180-4), the [hashlib.sha256(..).hexdigest()] of the source

    The theorems below hold for every digest function; this executable
    instance is the one the concrete scenarios are evaluated with. *)
Module SHA256.

Local Open Scope N_scope.

Definition w32 (x : N) : N := x mod 0x100000000.
Definition add32 (x y : N) : N := w32 (x + y).
Definition rotr (n x : N) : N :=
  N.lor (N.shiftr x n) (w32 (N.shiftl x (32 - n))).
Definition not32 (x : N) : N := N.lxor x 0xffffffff.

Definition Ch (x y z : N) : N := N.lxor (N.land x y) (N.land (not32 x) z).
Definition Maj (x y z : N) : N :=
  N.lxor (N.lxor (N.land x y) (N.land x z)) (N.land y z).
Definition Sigma0 (x : N) : N := N.lxor (N.lxor (rotr 2 x) (rotr 13 x)) (rotr 22 x).
Definition Sigma1 (x : N) : N := N.lxor (N.lxor (rotr 6 x) (rotr 11 x)) (rotr 25 x).
Definition sigma0 (x : N) : N := N.lxor (N.lxor (rotr 7 x) (rotr 18 x)) (N.shiftr x 3).
Definition sigma1 (x : N) : N := N.lxor (N.lxor (rotr 17 x) (rotr 19 x)) (N.shiftr x 10).

(** The first [count] primes, by trial division from [k] on. *)
Fixpoint primes_from (fuel : nat) (k : N) (count : nat) (found : list N) : list N :=
  match fuel, count with
  | S f, S c =>
      if forallb (fun q => negb (k mod q =? 0)) found
      then primes_from f (k + 1) c (found ++ [k])
      else primes_from f (k + 1) count found
  | _, _ => found
  end.

Definition first_primes (count : nat) : list N := primes_from 400 2 count [].

(** The integer cube root of [n], one bit at a time below [2 ^ bits]. *)
Fixpoint cube_root (bits : nat) (n r : N) : N :=
  match bits with
  | O => r
  | S b =>
      let c := r + 2 ^ N.of_nat b in
      cube_root b n (if c * c * c <=? n then c else r)
  end.

(** The first 32 bits of the fractional part of the cube root, and of the
    square root, of [p]. *)
Definition frac_cube_root (p : N) : N := w32 (cube_root 40 (p * 2 ^ 96) 0).
Definition frac_sqrt (p : N) : N := w32 (N.sqrt (p * 2 ^ 64)).

(** The round constants, from the first 64 primes, and the initial hash
    value, from the first 8. *)
Definition K : list N := Eval vm_compute in map frac_cube_root (first_primes 64).

Definition H0 : list N := Eval vm_compute in map frac_sqrt (first_primes 8).

(** The message as bytes, then padded to a multiple of 64 bytes:
    0x80, zeros, and the bit length as a 64-bit big-endian integer. *)
Fixpoint bytes_of (s : string) : list N :=
  match s with
  | EmptyString => []
  | String c r => N_of_ascii c :: bytes_of r
  end.

Fixpoint be_bytes (count : nat) (x : N) : list N :=
  match count with
  | O => []
  | S c => be_bytes c (N.shiftr x 8) ++ [x mod 256]
  end.

Definition pad (msg : list N) : list N :=
  let len := N.of_nat (length msg) in
  let zeros := (55 + 64 - len mod 64) mod 64 in
  msg ++ [0x80] ++ repeat 0 (N.to_nat zeros) ++ be_bytes 8 (8 * len).

Fixpoint be_words (fuel : nat) (bs : list N) : list N :=
  match fuel, bs with
  | S f, a :: b :: c :: d :: r =>
      (N.shiftl a 24 + N.shiftl b 16 + N.shiftl c 8 + d) :: be_words f r
  | _, _ => []
  end.

(** Message schedule: [extend n w] holds W[t-1], W[t-2], ... newest first. *)
Fixpoint extend (n : nat) (rev_w : list N) : list N :=
  match n with
  | O => rev_w
  | S m =>
      let at_ i := nth i rev_w 0 in
      let w := add32 (add32 (sigma1 (at_ 1%nat)) (at_ 6%nat))
                     (add32 (sigma0 (at_ 14%nat)) (at_ 15%nat)) in
      extend m (w :: rev_w)
  end.

Definition schedule (block : list N) : list N := rev (extend 48 (rev block)).

Definition round (st : list N) (kw : N * N) : list N :=
  match st with
  | [a; b; c; d; e; f; g; h] =>
      let t1 := add32 (add32 (add32 h (Sigma1 e)) (add32 (Ch e f g) (fst kw))) (snd kw) in
      let t2 := add32 (Sigma0 a) (Maj a b c) in
      [add32 t1 t2; a; b; c; add32 d t1; e; f; g]
  | _ => st
  end.

Fixpoint zip_add (xs ys : list N) : list N :=
  match xs, ys with
  | x :: xs', y :: ys' => add32 x y :: zip_add xs' ys'
  | _, _ => []
  end.

Definition compress (st block : list N) : list N :=
  zip_add st (fold_left round (combine K (schedule block)) st).

Fixpoint blocks (fuel : nat) (ws : list N) (st : list N) : list N :=
  match fuel, ws with
  | S f, _ :: _ => blocks f (skipn 16 ws) (compress st (firstn 16 ws))
  | _, _ => st
  end.

Definition digest_words (s : string) : list N :=
  let bs := pad (bytes_of s) in
  let ws := be_words (length bs) bs in
  blocks (length ws) ws H0.

Definition hex_digit (d : N) : ascii :=
  ascii_of_N (if d <? 10 then 48 + d else 87 + d).

Fixpoint hex_of (digits : nat) (x : N) (acc : string) : string :=
  match digits with
  | O => acc
  | S n => hex_of n (N.shiftr x 4) (String (hex_digit (x mod 16)) acc)
  end.

Definition hexdigest (s : string) : string :=
  fold_right (fun w acc => hex_of 8 w acc) EmptyString (digest_words s).

End SHA256.

(** ** Python values and the object store *)

(** Python [int] is [Z]; [len] of a list is an [int]. *)
Definition len {A} (l : list A) : Z := Z.of_nat (length l).

(** [range(start, stop, step)] for a positive [step]: the values
    [start + step * k] below [stop]. *)
Definition range (start stop step : Z) : list Z :=
  map (fun k => start + step * Z.of_nat k)
      (seq 0 (Z.to_nat ((stop - start + step - 1) / step))).

(** A [MerkleNode] object. Its attributes are assigned once, by [__init__],
    and never again, so a node is an immutable value: a leaf carries [data]
    and [hash] (its [left] and [right] are [None]), a non-leaf carries
    [left], [right] and [hash] (its [data] is [None]); [is_leaf] is the
    constructor. A [str] is the string of its UTF-8 bytes, so that
    [encode('utf-8')] is the identity. *)
Inductive MerkleNode : Type :=
| Leaf (data : string) (hash : string)
| Internal (left right : MerkleNode) (hash : string).

Definition hash (n : MerkleNode) : string :=
  match n with
  | Leaf _ h => h
  | Internal _ _ h => h
  end.

Definition is_leaf (n : MerkleNode) : bool :=
  match n with
  | Leaf _ _ => true
  | Internal _ _ _ => false
  end.

(** Every node object reachable from [n], [n] included. *)
Fixpoint nodes_of (n : MerkleNode) : list MerkleNode :=
  match n with
  | Leaf _ _ => [n]
  | Internal l r _ => n :: nodes_of l ++ nodes_of r
  end.

Abbreviation loc := positive.

(** A [MerkleTree] object: [data_blocks] and [leaves] refer to list objects,
    [root] is [None] or a node. *)
Record MerkleTree : Type := mkTree {
  data_blocks : loc;
  leaves : loc;
  root : option MerkleNode
}.

(** The store: the [MerkleTree] objects, the lists of nodes, the lists of
    strings, each by reference, and the inputs [hashlib.sha256] has been
    called on so far, oldest first. *)
Record store : Type := mkStore {
  trees : gmap loc MerkleTree;
  node_lists : gmap loc (list MerkleNode);
  str_lists : gmap loc (list string);
  hashed : list string
}.

Inductive exn : Type :=
| ValueError (msg : string)
| IndexError (msg : string)
| TypeError (msg : string)
| AttributeError (msg : string).

(** How a call ends: it returns, it raises, it follows a reference that is
    not in the store ([Stuck], which no Python run does), or a [while] loop
    is cut off ([OutOfFuel]). *)
Inductive outcome (A : Type) : Type :=
| Ok (a : A)
| Raise (e : exn)
| Stuck
| OutOfFuel.
Arguments Ok {A} a.
Arguments Raise {A} e.
Arguments Stuck {A}.
Arguments OutOfFuel {A}.

Definition M (A : Type) : Type := store -> outcome A * store.

Definition ret {A} (a : A) : M A := fun s => (Ok a, s).

Definition bind {A B} (m : M A) (k : A -> M B) : M B :=
  fun s =>
    match m s with
    | (Ok a, s') => k a s'
    | (Raise e, s') => (Raise e, s')
    | (Stuck, s') => (Stuck, s')
    | (OutOfFuel, s') => (OutOfFuel, s')
    end.

Definition raise {A} (e : exn) : M A := fun s => (Raise e, s).
Definition out_of_fuel {A} : M A := fun s => (OutOfFuel, s).

Declare Scope py_scope.
Delimit Scope py_scope with py.
Notation "x <- m ;; k" := (bind m (fun x => k))
  (at level 100, m at next level, right associativity) : py_scope.
Notation "m ;;; k" := (bind m (fun _ => k))
  (at level 100, right associativity) : py_scope.
Local Open Scope py_scope.

(** [for x in xs: st = body x st], the loop's variables threaded as [st]. *)
Fixpoint for_each {A St} (xs : list A) (body : A -> St -> M St) (st : St) : M St :=
  match xs with
  | [] => ret st
  | x :: rest => st' <- body x st ;; for_each rest body st'
  end.

(** [l[i]] on a list value, negative indices counting from the end. *)
Definition getitem {A} (l : list A) (i : Z) : M A :=
  let j := if i <? 0 then i + len l else i in
  match (if 0 <=? j then l !! Z.to_nat j else None) with
  | Some x => ret x
  | None => raise (IndexError "list index out of range")
  end.

(** *** List objects *)

Definition new_list (xs : list MerkleNode) : M loc :=
  fun s =>
    let l := fresh (dom (node_lists s)) in
    (Ok l, mkStore (trees s) (<[l := xs]> (node_lists s)) (str_lists s) (hashed s)).

Definition read_list (l : loc) : M (list MerkleNode) :=
  fun s =>
    match node_lists s !! l with
    | Some xs => (Ok xs, s)
    | None => (Stuck, s)
    end.

Definition list_append (l : loc) (x : MerkleNode) : M unit :=
  fun s =>
    match node_lists s !! l with
    | Some xs =>
        (Ok tt, mkStore (trees s) (<[l := xs ++ [x]]> (node_lists s)) (str_lists s) (hashed s))
    | None => (Stuck, s)
    end.

Definition list_len (l : loc) : M Z := xs <- read_list l ;; ret (len xs).

Definition list_getitem (l : loc) (i : Z) : M MerkleNode :=
  xs <- read_list l ;; getitem xs i.

Definition read_strs (l : loc) : M (list string) :=
  fun s =>
    match str_lists s !! l with
    | Some xs => (Ok xs, s)
    | None => (Stuck, s)
    end.

(** *** Tree objects and their attributes *)

Definition new_tree (t : MerkleTree) : M loc :=
  fun s =>
    let l := fresh (dom (trees s)) in
    (Ok l, mkStore (<[l := t]> (trees s)) (node_lists s) (str_lists s) (hashed s)).

Definition get_tree (self : loc) : M MerkleTree :=
  fun s =>
    match trees s !! self with
    | Some t => (Ok t, s)
    | None => (Stuck, s)
    end.

Definition put_tree (self : loc) (t : MerkleTree) : M unit :=
  fun s => (Ok tt, mkStore (<[self := t]> (trees s)) (node_lists s) (str_lists s) (hashed s)).

Definition get_data_blocks (self : loc) : M loc := t <- get_tree self ;; ret (data_blocks t).
Definition get_leaves (self : loc) : M loc := t <- get_tree self ;; ret (leaves t).
Definition get_root (self : loc) : M (option MerkleNode) := t <- get_tree self ;; ret (root t).

Definition set_leaves (self : loc) (l : loc) : M unit :=
  t <- get_tree self ;; put_tree self (mkTree (data_blocks t) l (root t)).
Definition set_root (self : loc) (r : option MerkleNode) : M unit :=
  t <- get_tree self ;; put_tree self (mkTree (data_blocks t) (leaves t) r).

(** ** The program *)

(** [sha256_hexdigest s] is [hashlib.sha256(s.encode('utf-8')).hexdigest()],
    a function of the library the program is linked with. *)
Class Hashlib : Type := sha256_hexdigest : string -> string.

Section Merkle.
Context `{Hashlib}.

(** A call of [hashlib.sha256]: the input is recorded in [hashed]. *)
Definition hashlib_sha256 (s : string) : M string :=
  fun st =>
    (Ok (sha256_hexdigest s),
     mkStore (trees st) (node_lists st) (str_lists st) (hashed st ++ [s])).

(** [MerkleNode.calculate_hash]: the argument is always a [str] here. *)
Definition calculate_hash (data : string) : M string := hashlib_sha256 data.

(** [MerkleNode.__init__(data=None, left=None, right=None, is_leaf=False)].
    The program passes no [left] and [right] for a leaf and no [data]
    otherwise. *)
Definition MerkleNode__init__
    (data : option string) (left right : option MerkleNode) (is_leaf : bool)
  : M MerkleNode :=
  if is_leaf then
    match data with
    | Some d => h <- calculate_hash d ;; ret (Leaf d h)
    | None => raise (TypeError "object supporting the buffer API required")
    end
  else
    match left, right with
    | Some l, Some r =>
        h <- calculate_hash (hash l +:+ hash r) ;; ret (Internal l r h)
    | _, _ => raise (AttributeError "'NoneType' object has no attribute 'hash'")
    end.

(** The body of the [for] loop of [build_tree] (lines 61-72). *)
Definition build_pair (current_level next_level : loc) (i : Z) (_ : unit) : M unit :=
  left <- list_getitem current_level i ;;
  n <- list_len current_level ;;
  right <- (if i + 1 <? n then list_getitem current_level (i + 1)
            else list_getitem current_level i) ;;
  parent <- MerkleNode__init__ None (Some left) (Some right) false ;;
  list_append next_level parent.

(** One pass of the [for] loop over [current_level], into [next_level]. *)
Definition pairing_round (current_level next_level : loc) : M unit :=
  n <- list_len current_level ;;
  for_each (range 0 n 2) (build_pair current_level next_level) tt.

(** The [while] loop of [build_tree]; it returns the last [current_level]. *)
Fixpoint build_loop (fuel : nat) (current_level : loc) : M loc :=
  n <- list_len current_level ;;
  if 1 <? n then
    match fuel with
    | O => out_of_fuel
    | S fuel' =>
        next_level <- new_list [] ;;
        pairing_round current_level next_level ;;;
        build_loop fuel' next_level
    end
  else ret current_level.

(** [MerkleTree.build_tree]. The list comprehension makes a new list and
    appends one leaf per block. A level of [n > 1] nodes is followed by one
    of [(n + 1) / 2 < n], so [len(self.leaves)] rounds are enough. *)
Definition build_tree (self : loc) : M unit :=
  d <- get_data_blocks self ;;
  blocks <- read_strs d ;;
  ls <- new_list [] ;;
  for_each blocks
    (fun block _ =>
       leaf <- MerkleNode__init__ (Some block) None None true ;;
       list_append ls leaf) tt ;;;
  set_leaves self ls ;;;
  current_level <- get_leaves self ;;
  n <- list_len current_level ;;
  top <- build_loop (Z.to_nat n) current_level ;;
  r <- list_getitem top 0 ;;
  set_root self (Some r).

(** [MerkleTree(data_blocks)]: the new object and [__init__] on it. *)
Definition MerkleTree__init__ (data_blocks : loc) : M loc :=
  blocks <- read_strs data_blocks ;;
  match blocks with
  | [] => raise (ValueError "Cannot create Merkle tree from empty data")
  | _ :: _ =>
      empty <- new_list [] ;;
      self <- new_tree (mkTree data_blocks empty None) ;;
      build_tree self ;;;
      ret self
  end.

(** [MerkleTree.get_root_hash]. *)
Definition get_root_hash (self : loc) : M (option string) :=
  r <- get_root self ;;
  match r with
  | Some n => ret (Some (hash n))
  | None => ret None
  end.

(** The body of the [for] loop of [get_proof] (lines 104-119); [st] is
    [(proof, current_index)]. *)
Definition proof_pair (current_level next_level : loc) (i : Z)
    (st : list (string * bool) * Z) : M (list (string * bool) * Z) :=
  left <- list_getitem current_level i ;;
  n <- list_len current_level ;;
  right <- (if i + 1 <? n then list_getitem current_level (i + 1)
            else list_getitem current_level i) ;;
  let st' :=
    if snd st =? i then (fst st ++ [(hash right, false)], i / 2)
    else if snd st =? i + 1 then (fst st ++ [(hash left, true)], i / 2)
    else st in
  parent <- MerkleNode__init__ None (Some left) (Some right) false ;;
  list_append next_level parent ;;;
  ret st'.

(** The [while] loop of [get_proof]. *)
Fixpoint proof_loop (fuel : nat) (current_level : loc)
    (st : list (string * bool) * Z) : M (list (string * bool)) :=
  n <- list_len current_level ;;
  if 1 <? n then
    match fuel with
    | O => out_of_fuel
    | S fuel' =>
        next_level <- new_list [] ;;
        n <- list_len current_level ;;
        st' <- for_each (range 0 n 2) (proof_pair current_level next_level) st ;;
        proof_loop fuel' next_level st'
    end
  else ret (fst st).

(** [MerkleTree.get_proof]. *)
Definition get_proof (self : loc) (data_index : Z) : M (list (string * bool)) :=
  out_of_range <-
    (if data_index <? 0 then ret true
     else ls <- get_leaves self ;; n <- list_len ls ;; ret (n <=? data_index)) ;;
  if out_of_range then
    raise (IndexError "Data index out of range")
  else
    current_level <- get_leaves self ;;
    n <- list_len current_level ;;
    proof_loop (Z.to_nat n) current_level ([], data_index).

(** One step of the [for] loop of [verify_proof]. *)
Definition verify_step (step : string * bool) (current_hash : string) : M string :=
  let '(sibling_hash, is_left) := step in
  let combined :=
    if is_left then sibling_hash +:+ current_hash
    else current_hash +:+ sibling_hash in
  hashlib_sha256 combined.

(** [MerkleTree.verify_proof]. *)
Definition verify_proof (self : loc) (data : string) (data_index : Z)
    (proof : list (string * bool)) (root_hash : string) : M bool :=
  current_hash <- hashlib_sha256 data ;;
  current_hash <- for_each proof verify_step current_hash ;;
  ret (String.eqb current_hash root_hash).

End Merkle.

(** ** What the loops compute, as functions on lists

    These are the functions the loops are shown to compute; the theorems
    are about the programs above. *)
Section Levels.
Context `{Hashlib}.

(** The node [MerkleNode(data=block, is_leaf=True)]. *)
Definition leaf_of (block : string) : MerkleNode :=
  Leaf block (sha256_hexdigest block).

(** The node [MerkleNode(left=l, right=r, is_leaf=False)]. *)
Definition parent (l r : MerkleNode) : MerkleNode :=
  Internal l r (sha256_hexdigest (hash l +:+ hash r)).

(** The level above [lvl]. *)
Fixpoint pair_level (lvl : list MerkleNode) : list MerkleNode :=
  match lvl with
  | [] => []
  | [x] => [parent x x]
  | x :: y :: rest => parent x y :: pair_level rest
  end.

(** The last level reached from [lvl] in at most [fuel] rounds. *)
Fixpoint top_level (fuel : nat) (lvl : list MerkleNode) : list MerkleNode :=
  match fuel with
  | O => lvl
  | S fuel' =>
      if (1 <? length lvl)%nat then top_level fuel' (pair_level lvl) else lvl
  end.

(** The proof entry for position [c] of [lvl]. *)
Definition sibling (lvl : list MerkleNode) (c : nat) : option (string * bool) :=
  if Nat.even c then
    x ← lvl !! c; Some (hash (default x (lvl !! S c)), false)
  else
    x ← lvl !! (c - 1)%nat; Some (hash x, true).

(** The proof entries from position [c] of [lvl] upwards. *)
Fixpoint path (fuel : nat) (lvl : list MerkleNode) (c : nat) : list (string * bool) :=
  match fuel with
  | O => []
  | S fuel' =>
      if (1 <? length lvl)%nat then
        option_list (sibling lvl c) ++ path fuel' (pair_level lvl) (c / 2)%nat
      else []
  end.

(** The hash chain of the specification of verification: from [current],
    each step [(sibling_hash, sibling_is_left)] gives
    [H(sibling_hash || current)] when the sibling is on the left and
    [H(current || sibling_hash)] otherwise. *)
Definition spec_chain (current : string) (proof : list (string * bool)) : string :=
  fold_left
    (fun (cur : string) (step : string * bool) =>
       if snd step then sha256_hexdigest (fst step +:+ cur)
       else sha256_hexdigest (cur +:+ fst step))
    proof current.

(** The node hash invariant at one node. *)
Definition node_hash_ok (n : MerkleNode) : Prop :=
  match n with
  | Leaf data h => h = sha256_hexdigest data
  | Internal l r h => h = sha256_hexdigest (hash l +:+ hash r)
  end.

(** [built s self d blocks s']: [s'] is [s] after the tree object at
    [self] has been built from the blocks [blocks] of the list at [d]. *)
Definition built (s : store) (self d : loc) (blocks : list string)
    (s' : store) : Prop :=
  exists ls r,
    str_lists s' = str_lists s /\
    trees s' = <[self := mkTree d ls (Some r)]> (trees s) /\
    (forall l xs, node_lists s !! l = Some xs -> node_lists s' !! l = Some xs) /\
    node_lists s' !! ls = Some (map leaf_of blocks) /\
    top_level (length blocks) (map leaf_of blocks) = [r].

(** The invariant at every node reachable from [n]. *)
Definition tree_ok (n : MerkleNode) : Prop :=
  forall m, m ∈ nodes_of n -> node_hash_ok m.

End Levels.

(** ** Compositions of the methods, and notions used to state more properties *)
Section Derived.
Context `{Hashlib}.

(** [MerkleTree(data_blocks).get_root_hash()]. *)
Definition merkle_root (data_blocks : loc) : M (option string) :=
  tree <- MerkleTree__init__ data_blocks ;; get_root_hash tree.

(** [MerkleTree(data_blocks).get_proof(data_index)]. *)
Definition merkle_proof (data_blocks : loc) (data_index : Z)
  : M (list (string * bool)) :=
  tree <- MerkleTree__init__ data_blocks ;; get_proof tree data_index.

(** Two different inputs with the same digest. *)
Definition collision : Prop :=
  exists x y : string, x <> y /\ sha256_hexdigest x = sha256_hexdigest y.


(** [perfect h n]: every leaf below [n] is at depth [h]. *)
Fixpoint perfect (h : nat) (n : MerkleNode) : Prop :=
  match h, n with
  | O, Leaf _ _ => True
  | S h', Internal l r _ => perfect h' l /\ perfect h' r
  | _, _ => False
  end.

(** The data of the leaves below [n], from left to right. *)
Fixpoint leaf_data (n : MerkleNode) : list string :=
  match n with
  | Leaf d _ => [d]
  | Internal l r _ => leaf_data l ++ leaf_data r
  end.

(** The string whose digest [__init__] stores in the node [n]. *)
Definition hash_input (n : MerkleNode) : string :=
  match n with
  | Leaf d _ => d
  | Internal l r _ => hash l +:+ hash r
  end.

(** The strings hashed by the pairing rounds from [lvl] on, in order. *)
Fixpoint rounds_inputs (fuel : nat) (lvl : list MerkleNode) : list string :=
  match fuel with
  | O => []
  | S fuel' =>
      if (1 <? length lvl)%nat
      then map hash_input (pair_level lvl) ++ rounds_inputs fuel' (pair_level lvl)
      else []
  end.

End Derived.

(** ** Concrete inputs *)

(** The digest function of [hashlib]. *)
Definition sha256 : Hashlib := SHA256.hexdigest.

(** A store whose only object is a list of blocks, at reference 1. *)
Definition store_of (blocks : list string) : store :=
  mkStore ∅ ∅ {[ 1%positive := blocks ]} [].

(** A store with the tree of the single block ["a"]. *)
Definition store_with_tree : store :=
  snd (MerkleTree__init__ (H := sha256) 1 (store_of ["a"]%string)).

(** A store with a level of three leaves at reference 1 and an empty list
    at reference 2. *)
Definition store_with_level : store :=
  mkStore ∅
    {[ 1%positive := map (leaf_of (H := sha256)) ["x"; "y"; "z"]%string;
       2%positive := [] ]}
    ∅ [].

(** A store whose only object is a list of blocks at reference 5, after
    one earlier call of the hash function. *)
Definition store_at_5 (blocks : list string) : store :=
  mkStore ∅ ∅ {[ 5%positive := blocks ]} ["earlier"%string].

(** The proof of index 1 and the root hash of ["a"; "b"; "c"; "d"]. *)
Definition proof_b : list (string * bool) :=
  [("ca978112ca1bbdcafac231b39a23dc4da786eff8147c4e72b9807785afee48bb"%string, true);
   ("d3a0f1c792ccf7f1708d5422696263e35755a86917ea76ef9242bd4a8cf4891a"%string, false)].

Definition root_abcd : string :=
  "58c89d709329eb37285837b042ab6ff72c7c8f74de0446b091b6a0131c102cfd".

(** ** Reasoning about programs of [M] *)

(** [wp m s E Q]: run from [s], [m] returns some [a] in a store with
    [Q a], or ends otherwise in a store with [E]. *)
Definition wp {A} (m : M A) (s : store) (E : store -> Prop)
    (Q : A -> store -> Prop) : Prop :=
  match m s with
  | (Ok a, s') => Q a s'
  | (_, s') => E s'
  end.

Definition no_failure : store -> Prop := fun _ => False.

(** [updated s l xs s']: [s'] is [s] with the list at [l] now [xs] (and
    possibly more calls of the hash function). *)
Definition updated (s : store) (l : loc) (xs : list MerkleNode) (s' : store) : Prop :=
  trees s' = trees s /\ str_lists s' = str_lists s /\
  node_lists s' = <[l := xs]> (node_lists s).

(** [extends s s']: [s'] has the tree objects and string lists of [s], and
    every node list of [s] with the same elements. *)
Definition extends (s s' : store) : Prop :=
  trees s' = trees s /\ str_lists s' = str_lists s /\
  forall l xs, node_lists s !! l = Some xs -> node_lists s' !! l = Some xs.

Section Logic.
Context {A B : Type}.
Implicit Types (s : store) (E : store -> Prop).

Lemma wp_ret (a : A) s E (Q : A -> store -> Prop) : Q a s -> wp (ret a) s E Q.
Proof. done. Qed.

Lemma wp_raise e s E (Q : A -> store -> Prop) : E s -> wp (raise e) s E Q.
Proof. done. Qed.

Lemma wp_bind (m : M A) (k : A -> M B) s E (Q : B -> store -> Prop) :
  wp m s E (fun a s' => wp (k a) s' E Q) -> wp (bind m k) s E Q.
Proof. unfold wp, bind. by destruct (m s) as [[a|e| |] s']. Qed.

Lemma wp_mono (m : M A) s E E' (Q Q' : A -> store -> Prop) :
  wp m s E Q ->
  (forall s', E s' -> E' s') ->
  (forall a s', Q a s' -> Q' a s') ->
  wp m s E' Q'.
Proof. unfold wp. destruct (m s) as [[a|e| |] s']; auto. Qed.

Lemma wp_returns (m : M A) s (Q : A -> store -> Prop) :
  wp m s no_failure Q -> exists a s', m s = (Ok a, s') /\ Q a s'.
Proof. unfold wp. destruct (m s) as [[a|e| |] s']; by eauto. Qed.
End Logic.

(** A [for] loop keeps an invariant indexed by the number of iterations. *)
Lemma wp_for_each {A St} (I : nat -> St -> store -> Prop)
    (xs : list A) (body : A -> St -> M St) st s E :
  I 0%nat st s ->
  (forall k x st s, xs !! k = Some x -> I k st s -> wp (body x st) s E (I (S k))) ->
  wp (for_each xs body st) s E (I (length xs)).
Proof.
  revert I st s. induction xs as [|x xs IH]; intros I st s H0 Hstep; simpl.
  - by apply wp_ret.
  - apply wp_bind. eapply wp_mono; [exact (Hstep 0%nat x st s eq_refl H0)|done|].
    intros st' s' H1. apply (IH (fun k => I (S k))); [done|].
    intros k y st'' s'' Hy. by apply (Hstep (S k)).
Qed.

(** *** The primitives *)
Section Primitives.
Implicit Types (s : store) (E : store -> Prop) (l : loc).

Lemma wp_read_list l s E (Q : list MerkleNode -> store -> Prop) :
  match node_lists s !! l with Some xs => Q xs s | None => E s end ->
  wp (read_list l) s E Q.
Proof. unfold wp, read_list. by destruct (node_lists s !! l). Qed.

Lemma wp_list_len l s E (Q : Z -> store -> Prop) :
  match node_lists s !! l with Some xs => Q (len xs) s | None => E s end ->
  wp (list_len l) s E Q.
Proof.
  intros H. apply wp_bind, wp_read_list.
  destruct (node_lists s !! l); [by apply wp_ret|done].
Qed.

Lemma wp_getitem {A} (xs : list A) (i : Z) x s E (Q : A -> store -> Prop) :
  0 <= i -> xs !! Z.to_nat i = Some x -> Q x s -> wp (getitem xs i) s E Q.
Proof.
  intros Hi Hx HQ. unfold getitem.
  destruct (Z.ltb_spec i 0); [lia|].
  destruct (Z.leb_spec 0 i); [|lia]. rewrite Hx. by apply wp_ret.
Qed.


Lemma wp_list_getitem l (i : Z) xs x s E (Q : MerkleNode -> store -> Prop) :
  node_lists s !! l = Some xs -> 0 <= i -> xs !! Z.to_nat i = Some x ->
  Q x s -> wp (list_getitem l i) s E Q.
Proof.
  intros Hl Hi Hx HQ. apply wp_bind, wp_read_list. rewrite Hl.
  by eapply wp_getitem.
Qed.

Lemma wp_list_append l x s E (Q : unit -> store -> Prop) :
  match node_lists s !! l with
  | Some xs =>
      Q tt (mkStore (trees s) (<[l := xs ++ [x]]> (node_lists s)) (str_lists s) (hashed s))
  | None => E s
  end ->
  wp (list_append l x) s E Q.
Proof. unfold wp, list_append. by destruct (node_lists s !! l). Qed.

Lemma wp_new_list xs s E (Q : loc -> store -> Prop) :
  (forall l, node_lists s !! l = None ->
     Q l (mkStore (trees s) (<[l := xs]> (node_lists s)) (str_lists s) (hashed s))) ->
  wp (new_list xs) s E Q.
Proof.
  intros H. unfold wp, new_list. apply H.
  apply not_elem_of_dom, is_fresh.
Qed.

Lemma wp_read_strs l s E (Q : list string -> store -> Prop) :
  match str_lists s !! l with Some xs => Q xs s | None => E s end ->
  wp (read_strs l) s E Q.
Proof. unfold wp, read_strs. by destruct (str_lists s !! l). Qed.

Lemma wp_new_tree t s E (Q : loc -> store -> Prop) :
  (forall l, trees s !! l = None ->
     Q l (mkStore (<[l := t]> (trees s)) (node_lists s) (str_lists s) (hashed s))) ->
  wp (new_tree t) s E Q.
Proof.
  intros H. unfold wp, new_tree. apply H.
  apply not_elem_of_dom, is_fresh.
Qed.

Lemma wp_get_tree l s E (Q : MerkleTree -> store -> Prop) :
  match trees s !! l with Some t => Q t s | None => E s end ->
  wp (get_tree l) s E Q.
Proof. unfold wp, get_tree. by destruct (trees s !! l). Qed.

Lemma wp_put_tree l t s E (Q : unit -> store -> Prop) :
  Q tt (mkStore (<[l := t]> (trees s)) (node_lists s) (str_lists s) (hashed s)) ->
  wp (put_tree l t) s E Q.
Proof. done. Qed.

Lemma wp_get_leaves l s E (Q : loc -> store -> Prop) :
  match trees s !! l with Some t => Q (leaves t) s | None => E s end ->
  wp (get_leaves l) s E Q.
Proof.
  intros H. apply wp_bind, wp_get_tree.
  destruct (trees s !! l); [by apply wp_ret|done].
Qed.

Lemma wp_get_data_blocks l s E (Q : loc -> store -> Prop) :
  match trees s !! l with Some t => Q (data_blocks t) s | None => E s end ->
  wp (get_data_blocks l) s E Q.
Proof.
  intros H. apply wp_bind, wp_get_tree.
  destruct (trees s !! l); [by apply wp_ret|done].
Qed.


Lemma wp_set_leaves l v s E (Q : unit -> store -> Prop) :
  match trees s !! l with
  | Some t =>
      Q tt (mkStore (<[l := mkTree (data_blocks t) v (root t)]> (trees s))
              (node_lists s) (str_lists s) (hashed s))
  | None => E s
  end ->
  wp (set_leaves l v) s E Q.
Proof.
  intros H. apply wp_bind, wp_get_tree.
  destruct (trees s !! l); [by apply wp_put_tree|done].
Qed.

Lemma wp_set_root l r s E (Q : unit -> store -> Prop) :
  match trees s !! l with
  | Some t =>
      Q tt (mkStore (<[l := mkTree (data_blocks t) (leaves t) r]> (trees s))
              (node_lists s) (str_lists s) (hashed s))
  | None => E s
  end ->
  wp (set_root l r) s E Q.
Proof.
  intros H. apply wp_bind, wp_get_tree.
  destruct (trees s !! l); [by apply wp_put_tree|done].
Qed.
End Primitives.

(** ** Facts about levels *)
Section LevelFacts.
Context `{Hashlib}.
Implicit Types (lvl : list MerkleNode) (k c : nat).

Lemma pairs_ind (P : list MerkleNode -> Prop) :
  P [] -> (forall x, P [x]) -> (forall x y rest, P rest -> P (x :: y :: rest)) ->
  forall lvl, P lvl.
Proof.
  intros Hnil Hone Hcons.
  assert (forall lvl, P lvl /\ forall x, P (x :: lvl)) as Hboth.
  { induction lvl as [|y lvl [IH1 IH2]]; split; auto. }
  intros lvl. apply Hboth.
Qed.

Lemma pair_level_length lvl :
  length (pair_level lvl) = ((length lvl + 1) / 2)%nat.
Proof.
  induction lvl using pairs_ind; [done..|].
  cbn [pair_level length]. rewrite IHlvl.
  replace (S (S (length lvl)) + 1)%nat with ((length lvl + 1) + 1 * 2)%nat by lia.
  rewrite Nat.div_add by done. lia.
Qed.

Lemma pair_level_lookup lvl k l :
  lvl !! (2 * k)%nat = Some l ->
  pair_level lvl !! k = Some (parent l (default l (lvl !! (2 * k + 1)%nat))).
Proof.
  revert k. induction lvl using pairs_ind; intros k Hl.
  - done.
  - destruct k as [|k]; [by simplify_eq/=|].
    replace (2 * S k)%nat with (S (S (2 * k))) in Hl by lia. done.
  - destruct k as [|k]; [by simplify_eq/=|].
    replace (2 * S k)%nat with (S (S (2 * k))) in Hl by lia.
    replace (2 * S k + 1)%nat with (S (S (2 * k + 1))) by lia.
    cbn [pair_level]. simpl in Hl |- *. by apply IHlvl.
Qed.

Lemma pair_level_shorter lvl :
  (1 < length lvl)%nat -> (length (pair_level lvl) < length lvl)%nat.
Proof.
  intros Hn. rewrite pair_level_length.
  apply Nat.Div0.div_lt_upper_bound. lia.
Qed.


Lemma range_pairs lvl :
  range 0 (len lvl) 2
  = map (fun k => 2 * Z.of_nat k) (seq 0 (length (pair_level lvl))).
Proof.
  unfold range, len. do 2 f_equal.
  rewrite pair_level_length.
  replace (Z.of_nat (length lvl) - 0 + 2 - 1) with (Z.of_nat (length lvl + 1)) by lia.
  change 2 with (Z.of_nat 2). rewrite <- Nat2Z.inj_div. apply Nat2Z.id.
Qed.

Lemma range_pairs_lookup lvl k (i : Z) :
  range 0 (len lvl) 2 !! k = Some i ->
  i = 2 * Z.of_nat k /\ (k < length (pair_level lvl))%nat.
Proof.
  rewrite range_pairs, list_lookup_fmap.
  intros Hk. apply fmap_Some in Hk as (j & Hj & ->).
  apply lookup_seq in Hj as [-> ?]. done.
Qed.

Lemma pair_level_source lvl k :
  (k < length (pair_level lvl))%nat -> is_Some (lvl !! (2 * k)%nat).
Proof.
  rewrite pair_level_length. intros Hk. apply lookup_lt_is_Some.
  assert (2 * k < 2 * ((length lvl + 1) / 2))%nat by lia.
  pose proof (Nat.Div0.mul_div_le (length lvl + 1) 2). lia.
Qed.
Lemma half_lt_pair_level lvl c :
  (c < length lvl)%nat -> (c / 2 < length (pair_level lvl))%nat.
Proof.
  intros Hc. rewrite pair_level_length. apply Nat.Div0.div_lt_upper_bound.
  pose proof (Nat.div_mod_eq (length lvl + 1) 2).
  pose proof (Nat.mod_upper_bound (length lvl + 1) 2). lia.
Qed.

Lemma log2_up_half (n : nat) :
  (2 <= n)%nat -> Nat.log2_up n = S (Nat.log2_up ((n + 1) / 2)).
Proof.
  intros Hn.
  assert ((n + 1) / 2 = S ((n - 1) / 2))%nat as ->.
  { replace (n + 1)%nat with ((n - 1) + 1 * 2)%nat by lia.
    rewrite Nat.div_add by done. lia. }
  destruct (decide (n = 2%nat)) as [->|Hbig]; [done|].
  assert (0 < (n - 1) / 2)%nat as Hpos.
  { apply (Nat.div_le_lower_bound _ 2 1); lia. }
  rewrite (Nat.log2_up_eqn n), (Nat.log2_up_eqn (S _)) by lia.
  cbn [Nat.pred]. f_equal.
  destruct (Nat.log2_spec ((n - 1) / 2) Hpos) as [Hlo Hhi].
  pose proof (Nat.div_mod_eq (n - 1) 2).
  pose proof (Nat.mod_upper_bound (n - 1) 2).
  replace (Nat.pred n) with (n - 1)%nat by lia.
  apply Nat.log2_unique; [lia|].
  rewrite !Nat.pow_succ_r' in *. lia.
Qed.

Lemma sibling_even lvl (k : nat) l :
  lvl !! (2 * k)%nat = Some l ->
  sibling lvl (2 * k) = Some (hash (default l (lvl !! (2 * k + 1)%nat)), false).
Proof.
  intros Hl. unfold sibling.
  replace (Nat.even (2 * k)) with true
    by (symmetry; apply Nat.even_spec; by exists k).
  replace (S (2 * k)) with (2 * k + 1)%nat by lia. by rewrite Hl.
Qed.

Lemma sibling_odd lvl (k : nat) l :
  lvl !! (2 * k)%nat = Some l ->
  sibling lvl (2 * k + 1) = Some (hash l, true).
Proof.
  intros Hl. unfold sibling.
  replace (Nat.even (2 * k + 1)) with false.
  - replace (2 * k + 1 - 1)%nat with (2 * k)%nat by lia. by rewrite Hl.
  - symmetry. rewrite <- Nat.negb_odd. apply negb_false_iff, Nat.odd_spec.
    by exists k.
Qed.

Lemma sibling_is_Some lvl c : (c < length lvl)%nat -> is_Some (sibling lvl c).
Proof.
  intros Hc. unfold sibling. destruct (Nat.even c).
  - destruct (lookup_lt_is_Some_2 lvl c Hc) as [x ->]. by eexists.
  - destruct (lookup_lt_is_Some_2 lvl (c - 1)%nat) as [x ->]; [lia|]. by eexists.
Qed.

(** A proof has one entry per round. *)
Lemma path_length fuel : forall lvl c,
  (c < length lvl)%nat -> (length lvl <= S fuel)%nat ->
  length (path fuel lvl c) = Nat.log2_up (length lvl).
Proof.
  induction fuel as [|fuel IH]; intros lvl c Hc Hlen.
  - by assert (length lvl = 1)%nat as -> by lia.
  - destruct (decide (1 < length lvl)%nat) as [Hlt|Hge].
    + cbn [path]. destruct (Nat.ltb_spec 1 (length lvl)); [|lia].
      destruct (sibling_is_Some lvl c Hc) as [e ->].
      rewrite length_app, IH.
      * rewrite pair_level_length. symmetry. apply log2_up_half. lia.
      * by apply half_lt_pair_level.
      * pose proof (pair_level_shorter lvl). lia.
    + cbn [path]. destruct (Nat.ltb_spec 1 (length lvl)); [lia|].
      by assert (length lvl = 1)%nat as -> by lia.
Qed.

(** Replaying the entries of [path] from a node of [lvl] gives the hash of
    the node the rounds end on. *)
Lemma climb_path fuel : forall lvl c x,
  lvl !! c = Some x -> (length lvl <= S fuel)%nat ->
  exists r, top_level fuel lvl = [r] /\
            spec_chain (hash x) (path fuel lvl c) = hash r.
Proof.
  induction fuel as [|fuel IH]; intros lvl c x Hx Hlen;
    pose proof (lookup_lt_Some _ _ _ Hx) as Hc.
  - destruct lvl as [|y [|? ?]]; simpl in *; try lia.
    assert (c = 0)%nat as -> by lia. simplify_eq/=. by exists x.
  - destruct (decide (1 < length lvl)%nat) as [Hlt|Hge].
    + cbn [path top_level]. destruct (Nat.ltb_spec 1 (length lvl)); [|lia].
      assert (c = 2 * (c / 2) \/ c = 2 * (c / 2) + 1)%nat as Hparity.
      { pose proof (Nat.div_mod_eq c 2).
        pose proof (Nat.mod_upper_bound c 2). lia. }
      pose proof (half_lt_pair_level lvl c Hc) as Hhalf.
      set (k := (c / 2)%nat) in *. clearbody k.
      destruct (pair_level_source lvl k Hhalf) as [l Hl].
      pose proof (pair_level_lookup lvl k l Hl) as Hp.
      destruct (IH (pair_level lvl) k _ Hp) as (r & Htop & Hchain).
      { pose proof (pair_level_shorter lvl). lia. }
      exists r. split; [done|]. rewrite <- Hchain.
      destruct Hparity as [-> | ->].
      * rewrite (sibling_even lvl k l Hl). simplify_eq. done.
      * rewrite (sibling_odd lvl k l Hl), Hx. done.
    + destruct lvl as [|y [|? ?]]; simpl in *; try lia.
      assert (c = 0)%nat as -> by lia. simplify_eq/=. by exists x.
Qed.

Lemma parent_ok l r : tree_ok l -> tree_ok r -> tree_ok (parent l r).
Proof.
  intros Hl Hr m Hm. cbn [parent nodes_of] in Hm.
  apply elem_of_cons in Hm as [-> | Hm]; [done|].
  apply elem_of_app in Hm as [Hm | Hm]; auto.
Qed.

Lemma leaf_of_ok (d : string) : tree_ok (leaf_of d).
Proof. intros m Hm. apply list_elem_of_singleton in Hm as ->. done. Qed.

Lemma pair_level_ok lvl : Forall tree_ok lvl -> Forall tree_ok (pair_level lvl).
Proof.
  induction lvl using pairs_ind; intros Hok; cbn [pair_level].
  - done.
  - apply Forall_cons_1 in Hok as [Hx _]. by repeat constructor; apply parent_ok.
  - apply Forall_cons_1 in Hok as [Hx Hok]. apply Forall_cons_1 in Hok as [Hy Hok].
    constructor; [by apply parent_ok|auto].
Qed.

Lemma top_level_ok fuel : forall lvl,
  Forall tree_ok lvl -> Forall tree_ok (top_level fuel lvl).
Proof.
  induction fuel as [|fuel IH]; intros lvl Hok; cbn [top_level]; [done|].
  destruct (1 <? length lvl)%nat; [|done]. by apply IH, pair_level_ok.
Qed.

Lemma leaves_ok (blocks : list string) : Forall tree_ok (map leaf_of blocks).
Proof. apply Forall_map, Forall_forall. intros d _. apply leaf_of_ok. Qed.

(** Pairing a level of odd length ends on the last node paired with itself. *)
Lemma pair_level_odd_last lvl x :
  Nat.odd (length lvl) = true -> last lvl = Some x ->
  last (pair_level lvl) = Some (parent x x).
Proof.
  induction lvl using pairs_ind; intros Hodd Hlast.
  - done.
  - by simplify_eq/=.
  - cbn [pair_level]. cbn [length] in Hodd.
    rewrite Nat.odd_succ, Nat.even_succ in Hodd.
    destruct lvl as [|z rest]; [done|].
    rewrite !last_cons_cons in Hlast.
    destruct (pair_level (z :: rest)) as [|q qs] eqn:Hq.
    + by destruct rest.
    + rewrite last_cons_cons. by apply IHlvl.
Qed.
End LevelFacts.

(** ** What the loops do to the store *)
Section Loops.
Context `{Hashlib}.
Implicit Types (s : store) (E : store -> Prop) (lvl : list MerkleNode).

Lemma extends_refl s : extends s s.
Proof. done. Qed.

Lemma extends_trans s1 s2 s3 : extends s1 s2 -> extends s2 s3 -> extends s1 s3.
Proof.
  intros (Ht1 & Hs1 & Hl1) (Ht2 & Hs2 & Hl2).
  split_and!; [congruence..|auto].
Qed.


Lemma wp_new_leaf (d : string) s E (Q : MerkleNode -> store -> Prop) :
  Q (leaf_of d) (mkStore (trees s) (node_lists s) (str_lists s) (hashed s ++ [d])) ->
  wp (MerkleNode__init__ (Some d) None None true) s E Q.
Proof. done. Qed.

Lemma wp_new_parent (l r : MerkleNode) s E (Q : MerkleNode -> store -> Prop) :
  Q (parent l r)
    (mkStore (trees s) (node_lists s) (str_lists s) (hashed s ++ [hash l +:+ hash r])) ->
  wp (MerkleNode__init__ None (Some l) (Some r) false) s E Q.
Proof. done. Qed.

(** The leaves: one per block, in order. *)
Lemma wp_leaf_loop (blocks : list string) ls s E (Q : unit -> store -> Prop) :
  node_lists s !! ls = Some [] ->
  (forall s', updated s ls (map leaf_of blocks) s' -> Q tt s') ->
  wp (for_each blocks
        (fun block _ =>
           leaf <- MerkleNode__init__ (Some block) None None true ;;
           list_append ls leaf) tt) s E Q.
Proof.
  intros Hls HQ.
  eapply wp_mono;
    [apply (wp_for_each
              (fun k (_ : unit) s' => updated s ls (take k (map leaf_of blocks)) s'))
    |done|].
  - split_and!; [done..|]. by rewrite insert_id.
  - intros k block [] s1 Hk (Ht & Hs & Hn).
    apply wp_bind, wp_new_leaf, wp_list_append. simpl.
    rewrite Hn, lookup_insert_eq. split_and!; simpl; [done..|].
    rewrite insert_insert_eq. f_equal.
    symmetry. apply take_S_r. by rewrite list_lookup_fmap, Hk.
  - intros [] s' Hs'. apply HQ.
    by rewrite <- (length_map leaf_of), firstn_all in Hs'.
Qed.

(** The node fetched as [right] for the pair starting at [2 * k]. *)
Lemma wp_fetch_right cur lvl (k : nat) l s E (Q : MerkleNode -> store -> Prop) :
  node_lists s !! cur = Some lvl ->
  lvl !! (2 * k)%nat = Some l ->
  Q (default l (lvl !! (2 * k + 1)%nat)) s ->
  wp (if 2 * Z.of_nat k + 1 <? len lvl
      then list_getitem cur (2 * Z.of_nat k + 1)
      else list_getitem cur (2 * Z.of_nat k)) s E Q.
Proof.
  intros Hcur Hl HQ. unfold len.
  destruct (Z.ltb_spec (2 * Z.of_nat k + 1) (Z.of_nat (length lvl))) as [Hlt|Hge].
  - destruct (lookup_lt_is_Some_2 lvl (2 * k + 1)%nat) as [r Hr]; [lia|].
    rewrite Hr in HQ. eapply wp_list_getitem; [done|lia| |done].
    by replace (Z.to_nat (2 * Z.of_nat k + 1)) with (2 * k + 1)%nat by lia.
  - rewrite (lookup_ge_None_2 lvl (2 * k + 1)%nat) in HQ by lia.
    eapply wp_list_getitem; [done|lia| |done].
    by replace (Z.to_nat (2 * Z.of_nat k)) with (2 * k)%nat by lia.
Qed.

Lemma wp_build_pair cur nl lvl acc (k : nat) l s E (Q : unit -> store -> Prop) :
  node_lists s !! cur = Some lvl ->
  node_lists s !! nl = Some acc ->
  lvl !! (2 * k)%nat = Some l ->
  (forall s',
      updated s nl (acc ++ [parent l (default l (lvl !! (2 * k + 1)%nat))]) s' ->
      Q tt s') ->
  wp (build_pair cur nl (2 * Z.of_nat k) tt) s E Q.
Proof.
  intros Hcur Hnl Hl HQ. unfold build_pair.
  apply wp_bind. eapply wp_list_getitem; [done|lia| |].
  { by replace (Z.to_nat (2 * Z.of_nat k)) with (2 * k)%nat by lia. }
  apply wp_bind, wp_list_len. rewrite Hcur.
  apply wp_bind. eapply wp_fetch_right; [done..|].
  apply wp_bind, wp_new_parent, wp_list_append. simpl. rewrite Hnl.
  by apply HQ.
Qed.

Lemma wp_proof_pair cur nl lvl acc (k : nat) l st s E
    (Q : list (string * bool) * Z -> store -> Prop) :
  node_lists s !! cur = Some lvl ->
  node_lists s !! nl = Some acc ->
  lvl !! (2 * k)%nat = Some l ->
  (forall s',
      let r := default l (lvl !! (2 * k + 1)%nat) in
      updated s nl (acc ++ [parent l r]) s' ->
      Q (if snd st =? 2 * Z.of_nat k
         then (fst st ++ [(hash r, false)], 2 * Z.of_nat k / 2)
         else if snd st =? 2 * Z.of_nat k + 1
              then (fst st ++ [(hash l, true)], 2 * Z.of_nat k / 2)
              else st) s') ->
  wp (proof_pair cur nl (2 * Z.of_nat k) st) s E Q.
Proof.
  intros Hcur Hnl Hl HQ. unfold proof_pair.
  apply wp_bind. eapply wp_list_getitem; [done|lia| |].
  { by replace (Z.to_nat (2 * Z.of_nat k)) with (2 * k)%nat by lia. }
  apply wp_bind, wp_list_len. rewrite Hcur.
  apply wp_bind. eapply wp_fetch_right; [done..|].
  apply wp_bind, wp_new_parent, wp_bind, wp_list_append. simpl. rewrite Hnl.
  apply wp_ret. by apply HQ.
Qed.

(** One round of [build_tree] fills the new list with the level above. *)
Lemma wp_pairing_round cur nl lvl s E (Q : unit -> store -> Prop) :
  cur <> nl ->
  node_lists s !! cur = Some lvl ->
  node_lists s !! nl = Some [] ->
  (forall s', updated s nl (pair_level lvl) s' -> Q tt s') ->
  wp (pairing_round cur nl) s E Q.
Proof.
  intros Hne Hcur Hnl HQ. unfold pairing_round.
  apply wp_bind, wp_list_len. rewrite Hcur.
  eapply wp_mono;
    [apply (wp_for_each
              (fun k (_ : unit) s' => updated s nl (take k (pair_level lvl)) s'))
    |done|].
  - split_and!; [done..|]. by rewrite insert_id.
  - intros k i [] s1 Hk (Ht & Hs & Hn).
    apply range_pairs_lookup in Hk as [-> Hk].
    destruct (pair_level_source lvl k Hk) as [l Hl].
    eapply wp_build_pair; [| |done|].
    + by rewrite Hn, lookup_insert_ne.
    + by rewrite Hn, lookup_insert_eq.
    + intros s2 (Ht2 & Hs2 & Hn2). split_and!; [congruence..|].
      rewrite Hn2, Hn, insert_insert_eq. f_equal.
      symmetry. apply take_S_r. by apply pair_level_lookup.
  - intros [] s' Hs'. apply HQ.
    rewrite range_pairs, length_map, length_seq in Hs'.
    by rewrite firstn_all in Hs'.
Qed.

(** One round of [get_proof]: the level above is built, one entry is
    appended to the proof and the tracked index is halved. *)
Lemma wp_proof_round cur nl lvl (p : list (string * bool)) (c : nat) s E
    (Q : list (string * bool) * Z -> store -> Prop) :
  cur <> nl ->
  node_lists s !! cur = Some lvl ->
  node_lists s !! nl = Some [] ->
  (c < length lvl)%nat ->
  (forall s', updated s nl (pair_level lvl) s' ->
              Q (p ++ option_list (sibling lvl c), Z.of_nat (c / 2)) s') ->
  wp (for_each (range 0 (len lvl) 2) (proof_pair cur nl) (p, Z.of_nat c)) s E Q.
Proof.
  intros Hne Hcur Hnl Hc HQ.
  pose proof (half_lt_pair_level lvl c Hc) as Hhalf.
  assert (c = 2 * (c / 2) \/ c = 2 * (c / 2) + 1)%nat as Hparity.
  { pose proof (Nat.div_mod_eq c 2).
    pose proof (Nat.mod_upper_bound c 2). lia. }
  set (h := (c / 2)%nat) in *. clearbody h.
  eapply wp_mono;
    [apply (wp_for_each
              (fun k st s' =>
                 updated s nl (take k (pair_level lvl)) s' /\
                 st = if (k <=? h)%nat then (p, Z.of_nat c)
                      else (p ++ option_list (sibling lvl c), Z.of_nat h)))
    |done|].
  - split; [split_and!; [done..|]; by rewrite insert_id|].
    by destruct (Nat.leb_spec 0 h); [|lia].
  - intros k i st s1 Hk [(Ht & Hs & Hn) Hst].
    apply range_pairs_lookup in Hk as [-> Hk].
    destruct (pair_level_source lvl k Hk) as [l Hl].
    eapply wp_proof_pair; [| |done|].
    + by rewrite Hn, lookup_insert_ne.
    + by rewrite Hn, lookup_insert_eq.
    + intros s2 r (Ht2 & Hs2 & Hn2). split.
      * split_and!; [congruence..|].
        rewrite Hn2, Hn, insert_insert_eq. f_equal.
        symmetry. apply take_S_r. by apply pair_level_lookup.
      * subst st.
        replace (2 * Z.of_nat k / 2) with (Z.of_nat k)
          by (rewrite Z.mul_comm, Z.div_mul; lia).
        destruct (Nat.leb_spec k h) as [Hle|Hgt]; cbn [fst snd].
        -- destruct (Z.eqb_spec (Z.of_nat c) (2 * Z.of_nat k)) as [Heq|Hne1].
           { assert (h = k) as -> by lia. assert (c = 2 * k)%nat as -> by lia.
             destruct (Nat.leb_spec (S k) k); [lia|].
             by rewrite (sibling_even lvl k l Hl). }
           destruct (Z.eqb_spec (Z.of_nat c) (2 * Z.of_nat k + 1)) as [Heq|Hne2].
           { assert (h = k) as -> by lia. assert (c = 2 * k + 1)%nat as -> by lia.
             destruct (Nat.leb_spec (S k) k); [lia|].
             by rewrite (sibling_odd lvl k l Hl). }
           destruct (Nat.leb_spec (S k) h); [done|lia].
        -- destruct (Z.eqb_spec (Z.of_nat h) (2 * Z.of_nat k)); [lia|].
           destruct (Z.eqb_spec (Z.of_nat h) (2 * Z.of_nat k + 1)); [lia|].
           destruct (Nat.leb_spec (S k) h); [lia|done].
  - intros st s' [Hs' Hst]. subst st.
    rewrite range_pairs, length_map, length_seq in Hs' |- *.
    rewrite firstn_all in Hs'.
    destruct (Nat.leb_spec (length (pair_level lvl)) h); [lia|].
    by apply HQ.
Qed.

Lemma top_level_step fuel lvl :
  (1 < length lvl)%nat -> top_level (S fuel) lvl = top_level fuel (pair_level lvl).
Proof. intros Hn. cbn [top_level]. by destruct (Nat.ltb_spec 1 (length lvl)); [|lia]. Qed.

Lemma top_level_stop fuel lvl : (length lvl <= 1)%nat -> top_level fuel lvl = lvl.
Proof.
  intros Hn. destruct fuel; [done|]. cbn [top_level].
  by destruct (Nat.ltb_spec 1 (length lvl)); [lia|].
Qed.

Lemma path_step fuel lvl c :
  (1 < length lvl)%nat ->
  path (S fuel) lvl c
  = option_list (sibling lvl c) ++ path fuel (pair_level lvl) (c / 2)%nat.
Proof. intros Hn. cbn [path]. by destruct (Nat.ltb_spec 1 (length lvl)); [|lia]. Qed.

Lemma path_stop fuel lvl c : (length lvl <= 1)%nat -> path fuel lvl c = [].
Proof.
  intros Hn. destruct fuel; [done|]. cbn [path].
  by destruct (Nat.ltb_spec 1 (length lvl)); [lia|].
Qed.

Lemma fresh_list_extends s nl xs s' :
  node_lists s !! nl = None ->
  updated (mkStore (trees s) (<[nl := []]> (node_lists s)) (str_lists s) (hashed s))
          nl xs s' ->
  extends s s'.
Proof.
  intros Hnl (Ht & Hs & Hn). simpl in *. split_and!; [done..|].
  intros l ys Hl. rewrite Hn, !lookup_insert_ne; [done|congruence..].
Qed.

Lemma wp_build_loop fuel : forall cur lvl s E (Q : loc -> store -> Prop),
  node_lists s !! cur = Some lvl ->
  (length lvl <= S fuel)%nat ->
  (forall top s',
      extends s s' -> node_lists s' !! top = Some (top_level fuel lvl) ->
      Q top s') ->
  wp (build_loop fuel cur) s E Q.
Proof.
  induction fuel as [|fuel IH]; intros cur lvl s E Q Hcur Hlen HQ;
    cbn [build_loop];
    apply wp_bind, wp_list_len; rewrite Hcur; unfold len;
    destruct (Z.ltb_spec 1 (Z.of_nat (length lvl))) as [Hlt|Hge];
    try lia.
  - apply wp_ret, HQ; [apply extends_refl|done].
  - apply wp_bind, wp_new_list. intros nl Hnl.
    assert (cur <> nl) as Hne by congruence.
    apply wp_bind. eapply wp_pairing_round; [done| | |]; simpl.
    { by rewrite lookup_insert_ne. }
    { by rewrite lookup_insert_eq. }
    intros s1 Hs1. eapply IH.
    + destruct Hs1 as (_ & _ & ->). simpl. by rewrite lookup_insert_eq.
    + pose proof (pair_level_shorter lvl). lia.
    + intros top s2 Hext Htop. apply HQ.
      * eapply extends_trans; [|done]. by eapply fresh_list_extends.
      * rewrite top_level_step by lia. done.
  - apply wp_ret, HQ; [apply extends_refl|].
    rewrite top_level_stop by lia. done.
Qed.

Lemma wp_proof_loop fuel : forall cur lvl (p : list (string * bool)) (c : nat) s E
    (Q : list (string * bool) -> store -> Prop),
  node_lists s !! cur = Some lvl ->
  (length lvl <= S fuel)%nat ->
  (c < length lvl)%nat ->
  (forall s', extends s s' -> Q (p ++ path fuel lvl c) s') ->
  wp (proof_loop fuel cur (p, Z.of_nat c)) s E Q.
Proof.
  induction fuel as [|fuel IH]; intros cur lvl p c s E Q Hcur Hlen Hc HQ;
    cbn [proof_loop];
    apply wp_bind, wp_list_len; rewrite Hcur; unfold len;
    destruct (Z.ltb_spec 1 (Z.of_nat (length lvl))) as [Hlt|Hge];
    try lia.
  - apply wp_ret. cbn [fst]. rewrite <- (app_nil_r p).
    apply (HQ s), extends_refl.
  - apply wp_bind, wp_new_list. intros nl Hnl.
    assert (cur <> nl) as Hne by congruence.
    apply wp_bind, wp_list_len. simpl.
    rewrite lookup_insert_ne by done. rewrite Hcur.
    apply wp_bind. eapply wp_proof_round; [done| | |done|]; simpl.
    { by rewrite lookup_insert_ne. }
    { by rewrite lookup_insert_eq. }
    intros s1 Hs1. eapply IH.
    + destruct Hs1 as (_ & _ & ->). simpl. by rewrite lookup_insert_eq.
    + pose proof (pair_level_shorter lvl). lia.
    + by apply half_lt_pair_level.
    + intros s2 Hext. rewrite <- app_assoc, <- path_step by lia. apply HQ.
      eapply extends_trans; [|done]. by eapply fresh_list_extends.
  - apply wp_ret. cbn [fst]. rewrite <- (app_nil_r p).
    rewrite <- (path_stop (S fuel) lvl c) by lia.
    apply (HQ s), extends_refl.
Qed.

Lemma top_level_root (blocks : list string) :
  blocks <> [] ->
  exists r, top_level (length blocks) (map leaf_of blocks) = [r].
Proof.
  intros Hne. destruct blocks as [|b bs]; [done|].
  destruct (climb_path (length (b :: bs)) (map leaf_of (b :: bs)) 0 (leaf_of b))
    as (r & Hr & _); [done|rewrite length_map; lia|].
  by exists r.
Qed.

Lemma wp_build_tree self t blocks s E (Q : unit -> store -> Prop) :
  trees s !! self = Some t ->
  str_lists s !! data_blocks t = Some blocks ->
  blocks <> [] ->
  (forall s', built s self (data_blocks t) blocks s' -> Q tt s') ->
  wp (build_tree self) s E Q.
Proof.
  intros Hself Hd Hne HQ. unfold build_tree.
  apply wp_bind, wp_get_data_blocks. rewrite Hself.
  apply wp_bind, wp_read_strs. rewrite Hd.
  apply wp_bind, wp_new_list. intros ls Hls.
  apply wp_bind. eapply wp_leaf_loop; simpl; [by rewrite lookup_insert_eq|].
  intros s1 Hs1. pose proof (fresh_list_extends _ _ _ _ Hls Hs1) as Hext1.
  destruct Hs1 as (Ht1 & Hstr1 & Hn1). simpl in *.
  apply wp_bind, wp_set_leaves. rewrite Ht1, Hself.
  apply wp_bind, wp_get_leaves. simpl. rewrite lookup_insert_eq. simpl.
  apply wp_bind, wp_list_len. simpl. rewrite Hn1, lookup_insert_eq.
  unfold len. rewrite Nat2Z.id, length_map.
  destruct (top_level_root blocks Hne) as [r Hr].
  apply wp_bind. eapply wp_build_loop; simpl.
  { by rewrite ?Hn1, lookup_insert_eq. }
  { rewrite length_map. lia. }
  intros top s2 (Ht2 & Hstr2 & Hn2) Htop. simpl in *. rewrite Hr in Htop.
  apply wp_bind. eapply wp_list_getitem; [done..|].
  apply wp_set_root. rewrite Ht2, lookup_insert_eq. simpl.
  apply HQ. exists ls, r. simpl. split_and!.
  - congruence.
  - by rewrite insert_insert_eq.
  - intros l xs Hl. apply Hn2. rewrite <- Hn1. by apply Hext1.
  - apply Hn2. by rewrite lookup_insert_eq.
  - done.
Qed.

Lemma wp_MerkleTree__init__ d blocks s E (Q : loc -> store -> Prop) :
  str_lists s !! d = Some blocks ->
  blocks <> [] ->
  (forall self s', trees s !! self = None -> built s self d blocks s' -> Q self s') ->
  wp (MerkleTree__init__ d) s E Q.
Proof.
  intros Hd Hne HQ. unfold MerkleTree__init__.
  apply wp_bind, wp_read_strs. rewrite Hd.
  destruct blocks as [|b bs]; [done|].
  apply wp_bind, wp_new_list. intros empty Hempty.
  apply wp_bind, wp_new_tree. intros self Hself. simpl in *.
  apply wp_bind. eapply wp_build_tree; simpl; [by rewrite lookup_insert_eq|done..|].
  intros s' (ls & r & Hstr & Ht & Hn & Hls & Hr). simpl in *.
  apply wp_ret, HQ; [done|]. exists ls, r. split_and!; [done| |  |done..].
  - by rewrite Ht, insert_insert_eq.
  - intros l xs Hl. apply Hn. rewrite lookup_insert_ne; [done|congruence].
Qed.

Lemma wp_get_proof self t lvl (c : nat) s E
    (Q : list (string * bool) -> store -> Prop) :
  trees s !! self = Some t ->
  node_lists s !! leaves t = Some lvl ->
  (c < length lvl)%nat ->
  (forall s', extends s s' -> Q (path (length lvl) lvl c) s') ->
  wp (get_proof self (Z.of_nat c)) s E Q.
Proof.
  intros Hself Hlvl Hc HQ. unfold get_proof.
  apply wp_bind. destruct (Z.ltb_spec (Z.of_nat c) 0); [lia|].
  apply wp_bind, wp_get_leaves. rewrite Hself.
  apply wp_bind, wp_list_len. rewrite Hlvl. unfold len. apply wp_ret.
  destruct (Z.leb_spec (Z.of_nat (length lvl)) (Z.of_nat c)); [lia|].
  apply wp_bind, wp_get_leaves. rewrite Hself.
  apply wp_bind, wp_list_len. rewrite Hlvl. unfold len. rewrite Nat2Z.id.
  eapply wp_proof_loop; [done|lia|done|]. done.
Qed.

Lemma verify_loop_run (proof : list (string * bool)) : forall (cur : string) s,
  exists hs,
    for_each proof verify_step cur s
    = (Ok (spec_chain cur proof),
       mkStore (trees s) (node_lists s) (str_lists s) (hashed s ++ hs)).
Proof.
  induction proof as [|[sib is_left] proof IH]; intros cur s.
  - exists []. destruct s. simpl. unfold ret. by rewrite app_nil_r.
  - cbn [for_each]. unfold bind at 1. cbn [verify_step hashlib_sha256].
    edestruct IH as [hs ->]. simpl.
    exists ((if is_left then sib +:+ cur else cur +:+ sib) :: hs).
    rewrite <- app_assoc. by destruct is_left.
Qed.

(** [verify_proof] returns whether the chain ends on [root_hash]. *)
Lemma verify_proof_run self (data : string) (i : Z) proof (root_hash : string) s :
  exists hs,
    verify_proof self data i proof root_hash s
    = (Ok (String.eqb (spec_chain (sha256_hexdigest data) proof) root_hash),
       mkStore (trees s) (node_lists s) (str_lists s) (hashed s ++ hs)).
Proof.
  unfold verify_proof, bind. cbn [hashlib_sha256].
  edestruct verify_loop_run as [hs ->]. simpl. exists (data :: hs).
  unfold ret. by rewrite <- app_assoc.
Qed.
End Loops.

(** ** Runs of the methods *)
Section Runs.
Context `{Hashlib}.
Implicit Types (s : store) (blocks : list string).

Lemma MerkleTree__init__run s d blocks :
  str_lists s !! d = Some blocks -> blocks <> [] ->
  exists self s',
    MerkleTree__init__ d s = (Ok self, s') /\
    trees s !! self = None /\ built s self d blocks s'.
Proof.
  intros Hd Hne. apply wp_returns.
  eapply wp_MerkleTree__init__; [done..|]. auto.
Qed.

Lemma get_proof_run s self t lvl (i : Z) :
  trees s !! self = Some t ->
  node_lists s !! leaves t = Some lvl ->
  0 <= i < len lvl ->
  exists s',
    get_proof self i s = (Ok (path (length lvl) lvl (Z.to_nat i)), s') /\
    extends s s'.
Proof.
  intros Hself Hlvl Hi. unfold len in Hi.
  destruct (wp_returns (get_proof self (Z.of_nat (Z.to_nat i))) s
              (fun p s' => p = path (length lvl) lvl (Z.to_nat i) /\ extends s s'))
    as (p & s' & Hrun & -> & Hext).
  { eapply wp_get_proof; [done..|lia|]. auto. }
  rewrite Z2Nat.id in Hrun by lia. eauto.
Qed.

Lemma get_proof_negative s self (i : Z) :
  i < 0 ->
  get_proof self i s = (Raise (IndexError "Data index out of range"), s).
Proof.
  intros Hi. unfold get_proof, bind. by destruct (Z.ltb_spec i 0); [|lia].
Qed.

Lemma get_proof_raises s self t lvl (i : Z) :
  trees s !! self = Some t ->
  node_lists s !! leaves t = Some lvl ->
  i < 0 \/ len lvl <= i ->
  get_proof self i s = (Raise (IndexError "Data index out of range"), s).
Proof.
  intros Hself Hlvl Hi.
  destruct (decide (i < 0)) as [Hneg|Hpos]; [by apply get_proof_negative|].
  assert ((i <? 0) = false) as Hlt by (apply Z.ltb_ge; lia).
  unfold get_proof, get_leaves, list_len, bind, get_tree, read_list, ret.
  rewrite Hlt, Hself. simpl. rewrite Hlvl.
  destruct (Z.leb_spec (len lvl) i); [done|lia].
Qed.

Lemma get_root_hash_run s self t :
  trees s !! self = Some t ->
  get_root_hash self s = (Ok (hash <$> root t), s).
Proof.
  intros Hself. unfold get_root_hash, get_root, bind, get_tree, ret.
  rewrite Hself. by destruct (root t).
Qed.

Lemma built_tree s self d blocks s' :
  built s self d blocks s' ->
  exists ls r,
    trees s' !! self = Some (mkTree d ls (Some r)) /\
    node_lists s' !! ls = Some (map leaf_of blocks) /\
    top_level (length blocks) (map leaf_of blocks) = [r].
Proof.
  intros (ls & r & _ & Ht & _ & Hls & Hr). exists ls, r.
  by rewrite Ht, lookup_insert_eq.
Qed.
End Runs.

(** ** The properties of the specification *)
Section Properties.
Context `{Hashlib}.
Implicit Types (s : store) (blocks : list string).

(** C1, proof round-trip: for a non-empty list of blocks and a valid index
    [i], building the tree, asking it for the proof of [i] and for its root
    hash, and verifying block [i] against them returns [True]. *)
Theorem proof_roundtrip s d blocks (i : Z) (x : string) :
  str_lists s !! d = Some blocks ->
  0 <= i < len blocks ->
  blocks !! Z.to_nat i = Some x ->
  exists tree s1 proof s2 r s3 s4,
    MerkleTree__init__ d s = (Ok tree, s1) /\
    get_proof tree i s1 = (Ok proof, s2) /\
    get_root_hash tree s2 = (Ok (Some r), s3) /\
    verify_proof tree x i proof r s3 = (Ok true, s4).
Proof.
  intros Hd Hi Hx.
  destruct (MerkleTree__init__run s d blocks) as (tree & s1 & Hrun & _ & Hb);
    [done|by intros ->|].
  destruct (built_tree _ _ _ _ _ Hb) as (ls & r & Htree & Hls & Hr).
  destruct (get_proof_run s1 tree _ _ i Htree Hls) as (s2 & Hproof & Hext).
  { unfold len in *. by rewrite length_map. }
  assert (trees s2 !! tree = Some (mkTree d ls (Some r))) as Htree2.
  { destruct Hext as (-> & _). done. }
  destruct (verify_proof_run tree x i
              (path (length (map leaf_of blocks)) (map leaf_of blocks) (Z.to_nat i))
              (hash r) s2) as [hs Hverify].
  destruct (climb_path (length (map leaf_of blocks)) (map leaf_of blocks)
              (Z.to_nat i) (leaf_of x)) as (r' & Hr' & Hchain); [|lia|].
  { by rewrite list_lookup_fmap, Hx. }
  rewrite length_map, Hr in Hr'. simplify_eq.
  cbn [leaf_of hash] in Hchain. rewrite Hchain, String.eqb_refl in Hverify.
  do 7 eexists. split_and!; [done..| |done].
  by rewrite (get_root_hash_run _ _ _ Htree2).
Qed.

(** C2, node hash invariant: in the tree built from a non-empty list of
    blocks, the leaves are the nodes [Leaf b (H b)] of the blocks in order,
    and every node reachable from the root has hash [H (data)] if it is a
    leaf and [H (left.hash + right.hash)], in this order, if it is not. *)
Theorem node_hash_invariant s d blocks :
  str_lists s !! d = Some blocks ->
  blocks <> [] ->
  exists tree s' t r ls,
    MerkleTree__init__ d s = (Ok tree, s') /\
    trees s' !! tree = Some t /\
    root t = Some r /\
    node_lists s' !! leaves t = Some ls /\
    ls = map (fun b => Leaf b (sha256_hexdigest b)) blocks /\
    (forall n, n ∈ ls -> node_hash_ok n) /\
    (forall n, n ∈ nodes_of r -> node_hash_ok n).
Proof.
  intros Hd Hne.
  destruct (MerkleTree__init__run s d blocks) as (tree & s1 & Hrun & _ & Hb);
    [done..|].
  destruct (built_tree _ _ _ _ _ Hb) as (ls & r & Htree & Hls & Hr).
  exists tree, s1, (mkTree d ls (Some r)), r, (map leaf_of blocks).
  split_and!; [done..| |].
  - intros n Hn. apply list_elem_of_fmap in Hn as (b & -> & _). done.
  - pose proof (top_level_ok (length blocks) _ (leaves_ok blocks)) as Hok.
    rewrite Hr in Hok. by apply Forall_cons_1 in Hok as [Hok _].
Qed.

(** C3, verification algorithm: [verify_proof] returns, and it returns
    [True] exactly when the chain of the specification, from [H(data)]
    through the proof steps in order, ends on the expected root. *)
Theorem verify_proof_algorithm self (data : string) (i : Z)
    (proof : list (string * bool)) (root_hash : string) s :
  exists b s',
    verify_proof self data i proof root_hash s = (Ok b, s') /\
    (b = true <-> spec_chain (sha256_hexdigest data) proof = root_hash).
Proof.
  destruct (verify_proof_run self data i proof root_hash s) as [hs Hrun].
  do 2 eexists. split; [done|]. apply String.eqb_eq.
Qed.

(** C9, index noninterference: the result of [verify_proof] is the same
    for any two claimed indices, tree objects and stores; it depends only
    on the data, the proof and the expected root. *)
Theorem verify_proof_ignores_index self1 self2 (data : string) (i j : Z)
    (proof : list (string * bool)) (root_hash : string) s1 s2 :
  fst (verify_proof self1 data i proof root_hash s1)
  = fst (verify_proof self2 data j proof root_hash s2).
Proof.
  destruct (verify_proof_run self1 data i proof root_hash s1) as [hs1 ->].
  destruct (verify_proof_run self2 data j proof root_hash s2) as [hs2 ->].
  done.
Qed.

(** C6, empty input: building a tree from an empty list of blocks raises
    [ValueError], in the store it started from: no hash has been computed
    and no object has been created. *)
Theorem empty_input_rejected s d :
  str_lists s !! d = Some [] ->
  MerkleTree__init__ d s
  = (Raise (ValueError "Cannot create Merkle tree from empty data"), s).
Proof.
  intros Hd. unfold MerkleTree__init__, bind, read_strs. by rewrite Hd.
Qed.

(** C7, index out of range: for a tree with its list of leaves, an index
    below 0 or not below the number of leaves makes [get_proof] raise
    [IndexError], in the store it started from: no hash has been computed
    and no proof is returned. *)
Theorem index_out_of_range s self t lvl (i : Z) :
  trees s !! self = Some t ->
  node_lists s !! leaves t = Some lvl ->
  i < 0 \/ len lvl <= i ->
  get_proof self i s = (Raise (IndexError "Data index out of range"), s).
Proof. apply get_proof_raises. Qed.

(** C8, single block: the tree built from one block has that block's leaf
    as its root, so its root hash is the hash of the leaf; the only call of
    the hash function is the one for the leaf. *)
Theorem single_block_root s d (x : string) :
  str_lists s !! d = Some [x] ->
  exists tree s' t,
    MerkleTree__init__ d s = (Ok tree, s') /\
    trees s' !! tree = Some t /\
    root t = Some (Leaf x (sha256_hexdigest x)) /\
    node_lists s' !! leaves t = Some [Leaf x (sha256_hexdigest x)] /\
    get_root_hash tree s' = (Ok (Some (sha256_hexdigest x)), s') /\
    hashed s' = hashed s ++ [x].
Proof.
  intros Hd.
  destruct (wp_returns (MerkleTree__init__ d) s
              (fun tree s' =>
                 exists ls,
                   trees s' !! tree = Some (mkTree d ls (Some (leaf_of x))) /\
                   node_lists s' !! ls = Some [leaf_of x] /\
                   hashed s' = hashed s ++ [x]))
    as (tree & s' & Hrun & ls & Htree & Hls & Hhashed).
  { unfold MerkleTree__init__.
    apply wp_bind, wp_read_strs. rewrite Hd.
    apply wp_bind, wp_new_list. intros empty _.
    apply wp_bind, wp_new_tree. intros self _. simpl.
    apply wp_bind. unfold build_tree.
    apply wp_bind, wp_get_data_blocks. simpl. rewrite lookup_insert_eq. simpl.
    apply wp_bind, wp_read_strs. simpl. rewrite Hd.
    apply wp_bind, wp_new_list. intros ls _. simpl.
    apply wp_bind. cbn [for_each].
    apply wp_bind, wp_bind, wp_new_leaf, wp_list_append. simpl.
    rewrite lookup_insert_eq. apply wp_ret.
    apply wp_bind, wp_set_leaves. simpl. rewrite lookup_insert_eq. simpl.
    apply wp_bind, wp_get_leaves. simpl. rewrite lookup_insert_eq. simpl.
    apply wp_bind, wp_list_len. simpl. rewrite lookup_insert_eq.
    apply wp_bind. change (Z.to_nat (len [leaf_of x])) with 1%nat.
    cbn [build_loop]. apply wp_bind, wp_list_len. simpl.
    rewrite lookup_insert_eq. change (1 <? len [leaf_of x]) with false.
    apply wp_ret.
    apply wp_bind. eapply wp_list_getitem;
      [simpl; apply lookup_insert_eq|done|reflexivity|].
    apply wp_set_root. simpl. rewrite lookup_insert_eq. simpl.
    apply wp_ret. exists ls. simpl. by rewrite !lookup_insert_eq. }
  exists tree, s', (mkTree d ls (Some (leaf_of x))).
  split_and!; [done..| |done].
  by rewrite (get_root_hash_run _ _ _ Htree).
Qed.

(** C4, odd levels: one pass of the pairing loop over a level of odd
    length ends the new level with the last node paired with itself, a
    parent with hash [H (node.hash + node.hash)]; and in the tree of three
    blocks the root pairs the third leaf with itself, and the proof for
    index 2 starts with that leaf's own hash, as a right sibling. *)
Theorem odd_level_self_pairing :
  (forall s cur nl lvl x,
      cur <> nl ->
      node_lists s !! cur = Some lvl ->
      node_lists s !! nl = Some [] ->
      Nat.odd (length lvl) = true ->
      last lvl = Some x ->
      exists s' above,
        pairing_round cur nl s = (Ok tt, s') /\
        node_lists s' !! nl = Some above /\
        last above
        = Some (Internal x x (sha256_hexdigest (hash x +:+ hash x)))) /\
  (forall s d (a b c : string),
      str_lists s !! d = Some [a; b; c] ->
      exists tree s1 t la lb lc proof s2,
        MerkleTree__init__ d s = (Ok tree, s1) /\
        trees s1 !! tree = Some t /\
        node_lists s1 !! leaves t = Some [la; lb; lc] /\
        root t = Some (parent (parent la lb) (parent lc lc)) /\
        get_proof tree 2 s1 = (Ok ((hash lc, false) :: proof), s2)).
Proof.
  split.
  - intros s cur nl lvl x Hne Hcur Hnl Hodd Hlast.
    destruct (wp_returns (pairing_round cur nl) s
                (fun _ s' => updated s nl (pair_level lvl) s'))
      as ([] & s' & Hrun & _ & _ & Hn).
    { eapply wp_pairing_round; [done..|]. auto. }
    exists s', (pair_level lvl). split_and!; [done| |].
    + by rewrite Hn, lookup_insert_eq.
    + by apply pair_level_odd_last.
  - intros s d a b c Hd.
    destruct (MerkleTree__init__run s d [a; b; c]) as (tree & s1 & Hrun & _ & Hb);
      [done..|].
    destruct (built_tree _ _ _ _ _ Hb) as (ls & r & Htree & Hls & Hr).
    destruct (get_proof_run s1 tree _ _ 2 Htree Hls) as (s2 & Hproof & _);
      [done|].
    cbn in Hr. simplify_eq.
    exists tree, s1, (mkTree d ls (Some (parent (parent (leaf_of a) (leaf_of b))
                                            (parent (leaf_of c) (leaf_of c))))),
      (leaf_of a), (leaf_of b), (leaf_of c).
    eexists. exists s2. split_and!; [done..|]. exact Hproof.
Qed.

(** C5, proof length: for a tree of [n] blocks and a valid index, the
    proof has [ceil(log2(n))] entries, one per pairing round: none for a
    single block, and [max(1, ceil(log2(n)))] when [n] is at least 2. *)
Theorem proof_length s d blocks (i : Z) :
  str_lists s !! d = Some blocks ->
  0 <= i < len blocks ->
  exists tree s1 proof s2,
    MerkleTree__init__ d s = (Ok tree, s1) /\
    get_proof tree i s1 = (Ok proof, s2) /\
    length proof = Nat.log2_up (length blocks) /\
    ((2 <= length blocks)%nat ->
     length proof = Nat.max 1 (Nat.log2_up (length blocks))).
Proof.
  intros Hd Hi. unfold len in Hi.
  destruct (MerkleTree__init__run s d blocks) as (tree & s1 & Hrun & _ & Hb);
    [done|intros ->; simpl in Hi; lia|].
  destruct (built_tree _ _ _ _ _ Hb) as (ls & r & Htree & Hls & Hr).
  destruct (get_proof_run s1 tree _ _ i Htree Hls) as (s2 & Hproof & _).
  { unfold len. by rewrite length_map. }
  do 4 eexists. split_and!; [done..| |].
  - rewrite path_length, length_map; [done|rewrite length_map; lia..].
  - intros Hn. rewrite path_length, length_map; [|rewrite length_map; lia..].
    pose proof (Nat.log2_up_lt_pow2 (length blocks) 0) as Hpos. simpl in Hpos.
    lia.
Qed.

Lemma extends_subseteq s s' :
  extends s s' ->
  trees s' = trees s /\ str_lists s' = str_lists s /\ node_lists s ⊆ node_lists s'.
Proof.
  intros (Ht & Hs & Hn). split_and!; [done..|]. by apply map_subseteq_spec.
Qed.

(** C10, frame of proof generation: however [get_proof] ends, the tree
    objects (so the [data_blocks], [leaves] and [root] of each) are the
    ones of the store it started from, and so is every list of blocks and
    every list of nodes of that store; the levels it builds are new
    lists. *)
Theorem get_proof_preserves_tree s self (i : Z) :
  trees (snd (get_proof self i s)) = trees s /\
  str_lists (snd (get_proof self i s)) = str_lists s /\
  node_lists s ⊆ node_lists (snd (get_proof self i s)).
Proof.
  apply extends_subseteq.
  destruct (decide (i < 0)) as [Hneg|Hpos].
  { rewrite get_proof_negative by done. apply extends_refl. }
  assert ((i <? 0) = false) as Hlt by (apply Z.ltb_ge; lia).
  destruct (trees s !! self) as [t|] eqn:Hself.
  - destruct (node_lists s !! leaves t) as [lvl|] eqn:Hlvl.
    + destruct (decide (i < len lvl)) as [Hi|Hi].
      * destruct (get_proof_run s self t lvl i Hself Hlvl) as (s' & -> & Hext);
          [lia|done].
      * rewrite (get_proof_raises s self t lvl i Hself Hlvl) by lia.
        apply extends_refl.
    + unfold get_proof, get_leaves, list_len, bind, get_tree, read_list, ret.
      rewrite Hlt, Hself. simpl. rewrite Hlvl. apply extends_refl.
  - unfold get_proof, get_leaves, bind, get_tree. rewrite Hlt, Hself.
    apply extends_refl.
Qed.
End Properties.

(** ** The digest of [SHA256] has 64 hexadecimal digits *)
Section DigestLength.








End DigestLength.

(** ** More properties of the program *)

(** *** Digests and hash chains *)
Section Chains.
Context `{Hashlib}.

Lemma append_length (a b : string) :
  String.length (a +:+ b) = (String.length a + String.length b)%nat.
Proof. induction a as [|c a IH]; simpl; [done|]. by rewrite IH. Qed.

Lemma append_inj_l (a a' b b' : string) :
  String.length a = String.length a' ->
  a +:+ b = a' +:+ b' -> a = a' /\ b = b'.
Proof.
  revert a'. induction a as [|c a IH]; intros [|c' a'] Hlen Heq;
    simplify_eq/=; [done|].
  by destruct (IH a') as [-> ->].
Qed.

Lemma append_inj_r (a a' b b' : string) :
  String.length b = String.length b' ->
  a +:+ b = a' +:+ b' -> a = a' /\ b = b'.
Proof.
  intros Hlen Heq. apply append_inj_l; [|done].
  apply (f_equal String.length) in Heq. rewrite !append_length in Heq. lia.
Qed.

Lemma digest_inj (x y : string) :
  sha256_hexdigest x = sha256_hexdigest y -> x = y \/ collision.
Proof.
  intros Heq. destruct (decide (x = y)) as [->|Hne]; [by left|].
  right. by exists x, y.
Qed.

(** A chain over one proof ends on one digest from one start only, unless
    the digest function has a collision. *)
Lemma spec_chain_inj (p : list (string * bool)) : forall cur cur' : string,
  spec_chain cur p = spec_chain cur' p -> cur = cur' \/ collision.
Proof.
  induction p as [|[sib is_left] p IH]; intros cur cur' Heq; [by left|].
  cbn [spec_chain fold_left fst snd] in Heq.
  destruct (IH _ _ Heq) as [Hstep|?]; [|by right].
  destruct is_left; apply digest_inj in Hstep as [Hstep|?]; try by right.
  - left. by apply (append_inj_l sib sib cur cur') in Hstep as [_ ?].
  - left. by apply (append_inj_r cur cur' sib sib) in Hstep as [? _].
Qed.


Lemma verify_proof_true self (data : string) (i : Z) proof (root_hash : string) s :
  fst (verify_proof self data i proof root_hash s) = Ok true ->
  spec_chain (sha256_hexdigest data) proof = root_hash.
Proof.
  destruct (verify_proof_run self data i proof root_hash s) as [hs ->].
  cbn [fst]. intros [= Heq]. by apply String.eqb_eq.
Qed.

End Chains.

(** *** More facts about levels *)
Section Shapes.
Context `{Hashlib}.
Implicit Types (lvl : list MerkleNode) (blocks : list string).

(** The rounds do not depend on the fuel, once there is enough. *)
Lemma top_level_fuel fuel : forall fuel' lvl,
  (length lvl <= S fuel)%nat -> (length lvl <= S fuel')%nat ->
  top_level fuel lvl = top_level fuel' lvl.
Proof.
  induction fuel as [|fuel IH]; intros fuel' lvl Hf Hf'.
  - by rewrite (top_level_stop fuel') by lia.
  - destruct (decide (1 < length lvl)%nat) as [Hlt|Hge].
    + destruct fuel' as [|fuel']; [lia|].
      rewrite !top_level_step by done.
      pose proof (pair_level_shorter lvl Hlt). apply IH; lia.
    + by rewrite !top_level_stop by lia.
Qed.

Lemma pair_level_app lvl1 lvl2 :
  Nat.even (length lvl1) = true ->
  pair_level (lvl1 ++ lvl2) = pair_level lvl1 ++ pair_level lvl2.
Proof.
  induction lvl1 using pairs_ind; intros Heven.
  - done.
  - done.
  - cbn [length] in Heven. rewrite Nat.even_succ_succ in Heven.
    cbn [app pair_level]. by rewrite IHlvl1.
Qed.

(** Two levels of [2 ^ k] nodes side by side end on the parent of their
    two tops. *)
Lemma top_level_pow2_app (k : nat) : forall lvl1 lvl2,
  length lvl1 = (2 ^ k)%nat -> length lvl2 = (2 ^ k)%nat ->
  exists r1 r2,
    top_level (length lvl1) lvl1 = [r1] /\
    top_level (length lvl2) lvl2 = [r2] /\
    top_level (length (lvl1 ++ lvl2)) (lvl1 ++ lvl2) = [parent r1 r2].
Proof.
  induction k as [|k IH]; intros lvl1 lvl2 H1 H2.
  - destruct lvl1 as [|a [|? ?]]; try discriminate.
    destruct lvl2 as [|b [|? ?]]; try discriminate. by exists a, b.
  - assert (0 < 2 ^ k)%nat as Hpos by (apply Nat.neq_0_lt_0, Nat.pow_nonzero; lia).
    rewrite Nat.pow_succ_r' in H1, H2.
    assert (Nat.even (length lvl1) = true) as Heven1.
    { rewrite H1. apply Nat.even_spec. by exists (2 ^ k)%nat. }
    assert (length (pair_level lvl1) = 2 ^ k)%nat as Hp1.
    { rewrite pair_level_length, H1.
      replace (2 * 2 ^ k + 1)%nat with (1 + 2 ^ k * 2)%nat by lia.
      by rewrite Nat.div_add. }
    assert (length (pair_level lvl2) = 2 ^ k)%nat as Hp2.
    { rewrite pair_level_length, H2.
      replace (2 * 2 ^ k + 1)%nat with (1 + 2 ^ k * 2)%nat by lia.
      by rewrite Nat.div_add. }
    destruct (IH _ _ Hp1 Hp2) as (r1 & r2 & Hr1 & Hr2 & Hr).
    rewrite length_app, Hp1, Hp2 in Hr. rewrite Hp1 in Hr1. rewrite Hp2 in Hr2.
    exists r1, r2. split_and!.
    + rewrite H1. replace (2 * 2 ^ k)%nat with (S (2 * 2 ^ k - 1)) by lia.
      rewrite top_level_step by lia.
      by rewrite (top_level_fuel _ (2 ^ k)) by lia.
    + rewrite H2. replace (2 * 2 ^ k)%nat with (S (2 * 2 ^ k - 1)) by lia.
      rewrite top_level_step by lia.
      by rewrite (top_level_fuel _ (2 ^ k)) by lia.
    + rewrite length_app, H1, H2.
      replace (2 * 2 ^ k + 2 * 2 ^ k)%nat with (S (4 * 2 ^ k - 1)) by lia.
      rewrite top_level_step by (rewrite length_app; lia).
      rewrite pair_level_app by done.
      by rewrite (top_level_fuel _ (2 ^ k + 2 ^ k)) by (rewrite length_app; lia).
Qed.

(** A level of odd length and the same level with its last node repeated
    have the same level above. *)
Lemma pair_level_repeat_last lvl x :
  Nat.even (length lvl) = true ->
  pair_level (lvl ++ [x]) = pair_level (lvl ++ [x; x]).
Proof. intros Heven. by rewrite !pair_level_app. Qed.







Lemma pair_level_perfect lvl (h : nat) :
  Forall (perfect h) lvl -> Forall (perfect (S h)) (pair_level lvl).
Proof.
  induction lvl using pairs_ind; intros Hp; cbn [pair_level].
  - done.
  - apply Forall_cons_1 in Hp as [Hx _]. by repeat constructor.
  - apply Forall_cons_1 in Hp as [Hx Hp]. apply Forall_cons_1 in Hp as [Hy Hp].
    constructor; [done|auto].
Qed.

(** The rounds from a level of [n] nodes add [ceil(log2(n))] to the height. *)
Lemma top_level_perfect fuel : forall lvl (h : nat),
  (0 < length lvl)%nat -> (length lvl <= S fuel)%nat ->
  Forall (perfect h) lvl ->
  Forall (perfect (h + Nat.log2_up (length lvl))) (top_level fuel lvl).
Proof.
  induction fuel as [|fuel IH]; intros lvl h Hpos Hlen Hp.
  - assert (length lvl = 1)%nat as -> by lia. by rewrite Nat.add_0_r.
  - destruct (decide (1 < length lvl)%nat) as [Hlt|Hge].
    + rewrite top_level_step by done.
      rewrite (log2_up_half (length lvl)) by lia.
      rewrite <- pair_level_length, Nat.add_succ_r.
      apply (IH _ (S h)).
      * rewrite pair_level_length. apply (Nat.div_le_lower_bound _ 2 1); lia.
      * pose proof (pair_level_shorter lvl Hlt). lia.
      * by apply pair_level_perfect.
    + rewrite top_level_stop by lia.
      assert (length lvl = 1)%nat as -> by lia. by rewrite Nat.add_0_r.
Qed.

Lemma pair_level_leaf_data lvl :
  concat (map leaf_data lvl) `prefix_of` concat (map leaf_data (pair_level lvl)).
Proof.
  induction lvl using pairs_ind; cbn [pair_level map concat leaf_data parent].
  - done.
  - rewrite !app_nil_r. by apply prefix_app_r.
  - rewrite <- app_assoc. by do 2 apply prefix_app.
Qed.

Lemma top_level_leaf_data fuel : forall lvl,
  concat (map leaf_data lvl) `prefix_of` concat (map leaf_data (top_level fuel lvl)).
Proof.
  induction fuel as [|fuel IH]; intros lvl; cbn [top_level]; [done|].
  destruct (1 <? length lvl)%nat; [|done].
  etrans; [apply pair_level_leaf_data|apply IH].
Qed.

Lemma leaves_leaf_data blocks : concat (map leaf_data (map leaf_of blocks)) = blocks.
Proof. induction blocks as [|b blocks IH]; simpl; [done|]. by rewrite IH. Qed.

Lemma odd_of_nat (c : nat) : Z.odd (Z.of_nat c) = Nat.odd c.
Proof.
  destruct (Nat.Even_or_Odd c) as [[h ->]|[h ->]].
  - rewrite Nat2Z.inj_mul, Z.odd_even.
    symmetry. rewrite <- Nat.negb_even. apply negb_false_iff, Nat.even_spec.
    by exists h.
  - rewrite Nat2Z.inj_add, Nat2Z.inj_mul, Z.odd_odd.
    symmetry. apply Nat.odd_spec. by exists h.
Qed.

Lemma sibling_side lvl c e : sibling lvl c = Some e -> snd e = Nat.odd c.
Proof.
  unfold sibling. rewrite <- Nat.negb_even.
  destruct (Nat.even c); intros He; apply bind_Some in He as (x & _ & He);
    by simplify_eq.
Qed.

(** The side of entry [k] of a path is bit [k] of the position. *)
Lemma path_sides fuel : forall lvl c (k : nat) e,
  (c < length lvl)%nat ->
  path fuel lvl c !! k = Some e ->
  snd e = Z.testbit (Z.of_nat c) (Z.of_nat k).
Proof.
  induction fuel as [|fuel IH]; intros lvl c k e Hc He; [done|].
  cbn [path] in He. destruct (1 <? length lvl)%nat; [|done].
  destruct (sibling_is_Some lvl c Hc) as [e0 Hs].
  rewrite Hs in He.
  change ((e0 :: path fuel (pair_level lvl) (c / 2)%nat) !! k = Some e) in He.
  destruct k as [|k].
  - injection He as <-. rewrite (sibling_side _ _ _ Hs).
    change (Z.of_nat 0) with 0. by rewrite Z.bit0_odd, odd_of_nat.
  - change (path fuel (pair_level lvl) (c / 2)%nat !! k = Some e) in He.
    apply IH in He; [|by apply half_lt_pair_level].
    rewrite He, Nat2Z.inj_succ.
    rewrite <- Z.div2_bits by lia.
    by rewrite (Nat2Z.inj_div c 2).
Qed.

End Shapes.

(** *** More properties of verification *)
Section Binding.
Context `{Hashlib}.
Implicit Types (s : store) (proof : list (string * bool)).

(** X1, data binding: if two data blocks verify with the same proof against
    the same root, they are the same block, or two different strings with
    the same digest exist. *)
Theorem verify_proof_binds_data self1 self2 (data1 data2 : string) (i j : Z)
    proof (root_hash : string) s1 s2 :
  fst (verify_proof self1 data1 i proof root_hash s1) = Ok true ->
  fst (verify_proof self2 data2 j proof root_hash s2) = Ok true ->
  data1 = data2 \/ collision.
Proof.
  intros H1%verify_proof_true H2%verify_proof_true.
  destruct (spec_chain_inj proof (sha256_hexdigest data1) (sha256_hexdigest data2))
    as [Hd|?]; [congruence| |by right].
  by apply digest_inj.
Qed.


(** X8, frame and cost of verification: [verify_proof] always returns,
    changes no object of the store, and calls the hash function once for
    the data and once per proof step. *)
Theorem verify_proof_frame_and_cost self (data : string) (i : Z) proof
    (root_hash : string) s :
  exists b s',
    verify_proof self data i proof root_hash s = (Ok b, s') /\
    trees s' = trees s /\ node_lists s' = node_lists s /\
    str_lists s' = str_lists s /\
    exists hs, hashed s' = hashed s ++ data :: hs /\ length hs = length proof.
Proof.
  assert (forall p (cur : string) s0,
            exists hs,
              for_each p verify_step cur s0
              = (Ok (spec_chain cur p),
                 mkStore (trees s0) (node_lists s0) (str_lists s0) (hashed s0 ++ hs))
              /\ length hs = length p) as Hloop.
  { induction p as [|[sib is_left] p IH]; intros cur s0.
    - exists []. destruct s0. simpl. unfold ret. by rewrite app_nil_r.
    - cbn [for_each]. unfold bind at 1. cbn [verify_step hashlib_sha256].
      edestruct IH as (hs & -> & Hlen). simpl.
      exists ((if is_left then sib +:+ cur else cur +:+ sib) :: hs).
      rewrite <- app_assoc. simpl. rewrite Hlen. by destruct is_left. }
  unfold verify_proof, bind. cbn [hashlib_sha256].
  edestruct Hloop as (hs & -> & Hlen). simpl.
  do 2 eexists. split; [done|]. simpl. split_and!; [done..|].
  exists hs. by rewrite <- app_assoc.
Qed.

End Binding.

(** *** Runs of the compositions *)
Section MoreRuns.
Context `{Hashlib}.
Implicit Types (s : store) (blocks : list string).

Lemma merkle_root_run s d blocks :
  str_lists s !! d = Some blocks -> blocks <> [] ->
  exists r s',
    merkle_root d s = (Ok (Some (hash r)), s') /\
    top_level (length blocks) (map leaf_of blocks) = [r].
Proof.
  intros Hd Hne.
  destruct (MerkleTree__init__run s d blocks Hd Hne) as (tree & s1 & Hrun & _ & Hb).
  destruct (built_tree _ _ _ _ _ Hb) as (ls & r & Htree & _ & Hr).
  exists r, s1. split; [|done].
  unfold merkle_root, bind. rewrite Hrun.
  by rewrite (get_root_hash_run _ _ _ Htree).
Qed.

Lemma merkle_root_empty s d :
  str_lists s !! d = Some [] ->
  merkle_root d s
  = (Raise (ValueError "Cannot create Merkle tree from empty data"), s).
Proof.
  intros Hd. unfold merkle_root, MerkleTree__init__, bind, read_strs.
  by rewrite Hd.
Qed.

Lemma merkle_proof_empty s d (i : Z) :
  str_lists s !! d = Some [] ->
  merkle_proof d i s
  = (Raise (ValueError "Cannot create Merkle tree from empty data"), s).
Proof.
  intros Hd. unfold merkle_proof, MerkleTree__init__, bind, read_strs.
  by rewrite Hd.
Qed.

Lemma merkle_proof_run s d blocks (i : Z) :
  str_lists s !! d = Some blocks -> 0 <= i < len blocks ->
  exists s',
    merkle_proof d i s
    = (Ok (path (length blocks) (map leaf_of blocks) (Z.to_nat i)), s').
Proof.
  intros Hd Hi.
  destruct (MerkleTree__init__run s d blocks Hd) as (tree & s1 & Hrun & _ & Hb).
  { intros ->. unfold len in Hi. simpl in Hi. lia. }
  destruct (built_tree _ _ _ _ _ Hb) as (ls & r & Htree & Hls & _).
  destruct (get_proof_run s1 tree _ _ i Htree Hls) as (s2 & Hproof & _).
  { unfold len in *. by rewrite length_map. }
  exists s2. unfold merkle_proof, bind. rewrite Hrun, Hproof.
  by rewrite length_map.
Qed.

Lemma merkle_proof_raises s d blocks (i : Z) :
  str_lists s !! d = Some blocks -> blocks <> [] ->
  i < 0 \/ len blocks <= i ->
  exists s',
    merkle_proof d i s = (Raise (IndexError "Data index out of range"), s').
Proof.
  intros Hd Hne Hi.
  destruct (MerkleTree__init__run s d blocks Hd Hne) as (tree & s1 & Hrun & _ & Hb).
  destruct (built_tree _ _ _ _ _ Hb) as (ls & r & Htree & Hls & _).
  exists s1. unfold merkle_proof, bind. rewrite Hrun.
  apply (get_proof_raises s1 tree _ _ i Htree Hls).
  unfold len in *. by rewrite length_map.
Qed.

End MoreRuns.

(** *** More properties of construction and proofs *)
Section MoreProperties.
Context `{Hashlib}.
Implicit Types (s : store) (blocks : list string).

(** X3, leaves and internal nodes are hashed alike: in a tree of two or
    more blocks, the concatenation of the two hashes paired at the first
    step of the proof of block [i] verifies as data against the root, with
    the rest of that proof. *)
Theorem verify_accepts_internal_node s d blocks (i : Z) (x : string) :
  str_lists s !! d = Some blocks ->
  (2 <= length blocks)%nat ->
  0 <= i ->
  blocks !! Z.to_nat i = Some x ->
  exists tree s1 sib is_left rest s2 r,
    MerkleTree__init__ d s = (Ok tree, s1) /\
    get_proof tree i s1 = (Ok ((sib, is_left) :: rest), s2) /\
    get_root_hash tree s2 = (Ok (Some r), s2) /\
    forall self (j : Z) s3,
      fst (verify_proof self
             (if is_left then sib +:+ sha256_hexdigest x
              else sha256_hexdigest x +:+ sib) j rest r s3) = Ok true.
Proof.
  intros Hd Hn Hi Hx. pose proof (lookup_lt_Some _ _ _ Hx) as Hc.
  destruct (MerkleTree__init__run s d blocks Hd) as (tree & s1 & Hrun & _ & Hb).
  { by intros ->. }
  destruct (built_tree _ _ _ _ _ Hb) as (ls & r & Htree & Hls & Hr).
  destruct (get_proof_run s1 tree _ _ i Htree Hls) as (s2 & Hproof & Hext).
  { unfold len. rewrite length_map. lia. }
  assert (trees s2 !! tree = Some (mkTree d ls (Some r))) as Htree2.
  { destruct Hext as (-> & _). done. }
  destruct (climb_path (length (map leaf_of blocks)) (map leaf_of blocks)
              (Z.to_nat i) (leaf_of x)) as (r' & Hr' & Hchain); [|lia|].
  { by rewrite list_lookup_fmap, Hx. }
  rewrite length_map in Hr', Hchain, Hproof. rewrite Hr in Hr'.
  injection Hr' as <-.
  destruct (length blocks) as [|fuel] eqn:Hlen; [lia|].
  rewrite path_step in Hproof, Hchain by (rewrite length_map; lia).
  destruct (sibling_is_Some (map leaf_of blocks) (Z.to_nat i)) as [[sib is_left] Hs].
  { rewrite length_map. lia. }
  rewrite Hs in Hproof, Hchain.
  exists tree, s1, sib, is_left,
    (path fuel (pair_level (map leaf_of blocks)) (Z.to_nat i / 2)), s2, (hash r).
  split_and!; [done..| |].
  - by rewrite (get_root_hash_run _ _ _ Htree2).
  - intros self j s3.
    destruct (verify_proof_run self
                (if is_left then sib +:+ sha256_hexdigest x
                 else sha256_hexdigest x +:+ sib) j
                (path fuel (pair_level (map leaf_of blocks)) (Z.to_nat i / 2))
                (hash r) s3) as [hs ->].
    cbn [fst]. do 2 f_equal. apply String.eqb_eq.
    rewrite <- Hchain. cbn [option_list app leaf_of hash].
    by destruct is_left.
Qed.

(** X4, direction encoding: entry [k] of the proof of index [i] has its
    sibling on the left exactly when bit [k] of [i] is 1. *)
Theorem proof_sides_are_index_bits s d blocks (i : Z) :
  str_lists s !! d = Some blocks ->
  0 <= i < len blocks ->
  exists proof s',
    merkle_proof d i s = (Ok proof, s') /\
    forall (k : nat) sib is_left,
      proof !! k = Some (sib, is_left) -> is_left = Z.testbit i (Z.of_nat k).
Proof.
  intros Hd Hi.
  destruct (merkle_proof_run s d blocks i Hd Hi) as [s' Hrun].
  do 2 eexists. split; [done|]. intros k sib is_left Hk.
  apply path_sides in Hk; [|unfold len in Hi; rewrite length_map; lia].
  rewrite Z2Nat.id in Hk by lia. done.
Qed.

(** X5, first sibling: in a tree of two or more blocks, the proof of index
    [i] starts with the hash of the block before [i] when [i] is odd, of the
    block after [i] when [i] is even and not the last index, and of block
    [i] itself when [i] is even and the last index. *)
Theorem first_sibling_is_neighbour s d blocks (i : Z) :
  str_lists s !! d = Some blocks ->
  (2 <= length blocks)%nat ->
  0 <= i < len blocks ->
  exists y rest s',
    merkle_proof d i s = (Ok ((sha256_hexdigest y, Z.odd i) :: rest), s') /\
    blocks !! Z.to_nat (if Z.odd i then i - 1
                        else if i + 1 <? len blocks then i + 1 else i) = Some y.
Proof.
  intros Hd Hn Hi. unfold len in *.
  destruct (merkle_proof_run s d blocks i Hd) as [s' Hrun]; [done|].
  destruct (length blocks) as [|fuel] eqn:Hlen; [lia|].
  rewrite path_step in Hrun by (rewrite length_map; lia).
  remember (Z.to_nat i) as c eqn:Hci. assert (i = Z.of_nat c) as -> by lia.
  clear Hci. rewrite odd_of_nat. assert (c < S fuel)%nat as Hc by lia.
  unfold sibling in Hrun. rewrite <- Nat.negb_even.
  destruct (Nat.even c) eqn:Heven; cbn [negb].
  - destruct (lookup_lt_is_Some_2 blocks c) as [x Hx]; [lia|].
    rewrite !list_lookup_fmap, Hx in Hrun. cbn in Hrun.
    destruct (Z.ltb_spec (Z.of_nat c + 1) (Z.of_nat (S fuel))) as [Hlt|Hge].
    + destruct (lookup_lt_is_Some_2 blocks (S c)) as [y Hy]; [lia|].
      rewrite Hy in Hrun. exists y. do 2 eexists. split; [exact Hrun|].
      by replace (Z.to_nat (Z.of_nat c + 1)) with (S c) by lia.
    + rewrite (lookup_ge_None_2 blocks (S c)) in Hrun by lia.
      exists x. do 2 eexists. split; [exact Hrun|]. by rewrite Nat2Z.id.
  - assert (c <> 0)%nat as Hc0 by (by intros ->).
    destruct (lookup_lt_is_Some_2 blocks (c - 1)) as [y Hy]; [lia|].
    rewrite !list_lookup_fmap, Hy in Hrun. cbn in Hrun.
    exists y. do 2 eexists. split; [exact Hrun|].
    by replace (Z.to_nat (Z.of_nat c - 1)) with (c - 1)%nat by lia.
Qed.

(** X6, composition: for two lists of [2 ^ k] blocks each, the root hash of
    their concatenation is the digest of the two root hashes joined, left
    one first. *)
Theorem root_of_concatenation (k : nat) s1 s2 s d1 d2 d blocks1 blocks2 :
  str_lists s1 !! d1 = Some blocks1 ->
  str_lists s2 !! d2 = Some blocks2 ->
  str_lists s !! d = Some (blocks1 ++ blocks2) ->
  length blocks1 = (2 ^ k)%nat ->
  length blocks2 = (2 ^ k)%nat ->
  exists r1 r2 : string,
    fst (merkle_root d1 s1) = Ok (Some r1) /\
    fst (merkle_root d2 s2) = Ok (Some r2) /\
    fst (merkle_root d s) = Ok (Some (sha256_hexdigest (r1 +:+ r2))).
Proof.
  intros Hd1 Hd2 Hd Hl1 Hl2.
  assert (0 < 2 ^ k)%nat as Hpos by (apply Nat.neq_0_lt_0, Nat.pow_nonzero; lia).
  destruct (merkle_root_run s1 d1 blocks1 Hd1) as (r1 & s1' & -> & Hr1).
  { intros ->. simpl in Hl1. lia. }
  destruct (merkle_root_run s2 d2 blocks2 Hd2) as (r2 & s2' & -> & Hr2).
  { intros ->. simpl in Hl2. lia. }
  destruct (merkle_root_run s d (blocks1 ++ blocks2) Hd) as (r & s' & -> & Hr).
  { intros [-> _]%app_eq_nil. simpl in Hl1. lia. }
  destruct (top_level_pow2_app k (map leaf_of blocks1) (map leaf_of blocks2))
    as (r1' & r2' & Hr1' & Hr2' & Hr'); [by rewrite length_map..|].
  rewrite length_map, Hr1 in Hr1'. rewrite length_map, Hr2 in Hr2'.
  rewrite <- map_app, length_map, Hr in Hr'.
  injection Hr1' as <-. injection Hr2' as <-. injection Hr' as ->.
  by exists (hash r1), (hash r2).
Qed.

(** X7, repeated last block: a list of odd length, three or more, and the
    same list with its last block appended once more have the same root
    hash. *)
Theorem root_repeats_last_block s1 s2 d1 d2 blocks (x : string) :
  str_lists s1 !! d1 = Some (blocks ++ [x]) ->
  str_lists s2 !! d2 = Some (blocks ++ [x; x]) ->
  Nat.even (length blocks) = true ->
  blocks <> [] ->
  exists r : string,
    fst (merkle_root d1 s1) = Ok (Some r) /\
    fst (merkle_root d2 s2) = Ok (Some r).
Proof.
  intros Hd1 Hd2 Heven Hne.
  assert (2 <= length blocks)%nat as Hlen.
  { destruct blocks as [|? [|? ?]]; simpl in *; try done. lia. }
  destruct (merkle_root_run s1 d1 _ Hd1) as (r1 & s1' & -> & Hr1).
  { by intros [? _]%app_eq_nil. }
  destruct (merkle_root_run s2 d2 _ Hd2) as (r2 & s2' & -> & Hr2).
  { by intros [? _]%app_eq_nil. }
  exists (hash r1). split; [done|]. cbn [fst]. do 3 f_equal.
  rewrite !length_app in Hr1, Hr2. cbn [length] in Hr1, Hr2.
  replace (length blocks + 1)%nat with (S (length blocks)) in Hr1 by lia.
  replace (length blocks + 2)%nat with (S (S (length blocks))) in Hr2 by lia.
  rewrite top_level_step in Hr1, Hr2 by (rewrite length_map, length_app; simpl; lia).
  rewrite !map_app in Hr1, Hr2. cbn [map] in Hr1, Hr2.
  rewrite <- pair_level_repeat_last in Hr2 by (by rewrite length_map).
  assert (length (pair_level (map leaf_of blocks ++ [leaf_of x])) <= length blocks)%nat
    as Hshort.
  { pose proof (pair_level_shorter (map leaf_of blocks ++ [leaf_of x])) as Hs.
    rewrite length_app, length_map in Hs. cbn [length] in Hs. lia. }
  rewrite (top_level_fuel _ (length blocks)) in Hr2 by lia. congruence.
Qed.

(** X9, shape of the tree: the tree built from [n] blocks is a perfect
    binary tree of height [ceil(log2(n))], and the data of its leaves, read
    from left to right, starts with the blocks in their order. *)
Theorem tree_is_perfect s d blocks :
  str_lists s !! d = Some blocks ->
  blocks <> [] ->
  exists tree s' t r,
    MerkleTree__init__ d s = (Ok tree, s') /\
    trees s' !! tree = Some t /\
    root t = Some r /\
    perfect (Nat.log2_up (length blocks)) r /\
    blocks `prefix_of` leaf_data r.
Proof.
  intros Hd Hne.
  destruct (MerkleTree__init__run s d blocks Hd Hne) as (tree & s1 & Hrun & _ & Hb).
  destruct (built_tree _ _ _ _ _ Hb) as (ls & r & Htree & _ & Hr).
  exists tree, s1, (mkTree d ls (Some r)), r. split_and!; [done..| |].
  - pose proof (top_level_perfect (length blocks) (map leaf_of blocks) 0) as Hp.
    rewrite length_map, Hr in Hp.
    apply (Forall_cons_1 (perfect _)) in Hp as [Hp _]; [done| |lia|].
    + destruct blocks; [done|simpl; lia].
    + apply Forall_map, Forall_forall. by intros b _.
  - pose proof (top_level_leaf_data (length blocks) (map leaf_of blocks)) as Hp.
    rewrite leaves_leaf_data, Hr in Hp. cbn in Hp. by rewrite app_nil_r in Hp.
Qed.

(** X10, independence from the store: the root hash and every proof, or
    the exception raised, are the same for the same list of blocks, whatever
    else the store holds and wherever the list is. *)
Theorem results_depend_on_blocks_only s1 s2 d1 d2 blocks (i : Z) :
  str_lists s1 !! d1 = Some blocks ->
  str_lists s2 !! d2 = Some blocks ->
  fst (merkle_root d1 s1) = fst (merkle_root d2 s2) /\
  fst (merkle_proof d1 i s1) = fst (merkle_proof d2 i s2).
Proof.
  intros Hd1 Hd2. destruct (decide (blocks = [])) as [->|Hne].
  { by rewrite !merkle_root_empty, !merkle_proof_empty. }
  split.
  - destruct (merkle_root_run s1 d1 blocks Hd1 Hne) as (r1 & s1' & -> & Hr1).
    destruct (merkle_root_run s2 d2 blocks Hd2 Hne) as (r2 & s2' & -> & Hr2).
    rewrite Hr1 in Hr2. by injection Hr2 as ->.
  - destruct (decide (0 <= i < len blocks)) as [Hi|Hi].
    + destruct (merkle_proof_run s1 d1 blocks i Hd1 Hi) as [s1' ->].
      by destruct (merkle_proof_run s2 d2 blocks i Hd2 Hi) as [s2' ->].
    + destruct (merkle_proof_raises s1 d1 blocks i Hd1 Hne) as [s1' ->]; [lia|].
      by destruct (merkle_proof_raises s2 d2 blocks i Hd2 Hne) as [s2' ->]; [lia|].
Qed.


End MoreProperties.

(** *** The calls of the hash function *)
Section Logs.
Context `{Hashlib}.
Implicit Types (s : store) (E : store -> Prop) (lvl : list MerkleNode).

Lemma wp_leaf_loop_log (blocks : list string) ls s E (Q : unit -> store -> Prop) :
  node_lists s !! ls = Some [] ->
  (forall s', updated s ls (map leaf_of blocks) s' ->
              hashed s' = hashed s ++ blocks -> Q tt s') ->
  wp (for_each blocks
        (fun block _ =>
           leaf <- MerkleNode__init__ (Some block) None None true ;;
           list_append ls leaf) tt) s E Q.
Proof.
  intros Hls HQ.
  eapply wp_mono;
    [apply (wp_for_each
              (fun k (_ : unit) s' =>
                 updated s ls (take k (map leaf_of blocks)) s' /\
                 hashed s' = hashed s ++ take k blocks))
    |done|].
  - split; [|by rewrite app_nil_r]. split_and!; [done..|]. by rewrite insert_id.
  - intros k block [] s1 Hk [(Ht & Hs & Hn) Hlog].
    apply wp_bind, wp_new_leaf, wp_list_append. simpl.
    rewrite Hn, lookup_insert_eq. split; [split_and!|]; simpl; [done..| |].
    + rewrite insert_insert_eq. f_equal.
      symmetry. apply take_S_r. by rewrite list_lookup_fmap, Hk.
    + by rewrite Hlog, (take_S_r _ _ _ Hk), app_assoc.
  - intros [] s' [Hs' Hlog]. apply HQ.
    + by rewrite <- (length_map leaf_of), firstn_all in Hs'.
    + by rewrite firstn_all in Hlog.
Qed.

Lemma wp_build_pair_log cur nl lvl acc (k : nat) l s E (Q : unit -> store -> Prop) :
  node_lists s !! cur = Some lvl ->
  node_lists s !! nl = Some acc ->
  lvl !! (2 * k)%nat = Some l ->
  (forall s',
      let p := parent l (default l (lvl !! (2 * k + 1)%nat)) in
      updated s nl (acc ++ [p]) s' ->
      hashed s' = hashed s ++ [hash_input p] ->
      Q tt s') ->
  wp (build_pair cur nl (2 * Z.of_nat k) tt) s E Q.
Proof.
  intros Hcur Hnl Hl HQ. unfold build_pair.
  apply wp_bind. eapply wp_list_getitem; [done|lia| |].
  { by replace (Z.to_nat (2 * Z.of_nat k)) with (2 * k)%nat by lia. }
  apply wp_bind, wp_list_len. rewrite Hcur.
  apply wp_bind. eapply wp_fetch_right; [done..|].
  apply wp_bind, wp_new_parent, wp_list_append. simpl. rewrite Hnl.
  by apply HQ.
Qed.

Lemma wp_proof_pair_log cur nl lvl acc (k : nat) l st s E
    (Q : list (string * bool) * Z -> store -> Prop) :
  node_lists s !! cur = Some lvl ->
  node_lists s !! nl = Some acc ->
  lvl !! (2 * k)%nat = Some l ->
  (forall st' s',
      let p := parent l (default l (lvl !! (2 * k + 1)%nat)) in
      updated s nl (acc ++ [p]) s' ->
      hashed s' = hashed s ++ [hash_input p] ->
      Q st' s') ->
  wp (proof_pair cur nl (2 * Z.of_nat k) st) s E Q.
Proof.
  intros Hcur Hnl Hl HQ. unfold proof_pair.
  apply wp_bind. eapply wp_list_getitem; [done|lia| |].
  { by replace (Z.to_nat (2 * Z.of_nat k)) with (2 * k)%nat by lia. }
  apply wp_bind, wp_list_len. rewrite Hcur.
  apply wp_bind. eapply wp_fetch_right; [done..|].
  apply wp_bind, wp_new_parent, wp_bind, wp_list_append. simpl. rewrite Hnl.
  apply wp_ret. by apply HQ.
Qed.

(** Both pairing loops, over a fresh empty list, build the level above and
    hash the inputs of its nodes in order. *)
Lemma wp_round_log {St} (body : loc -> loc -> Z -> St -> M St)
    cur nl lvl (st : St) s E (Q : St -> store -> Prop) :
  (forall (k : nat) l acc st0 s0 (Q0 : St -> store -> Prop),
      node_lists s0 !! cur = Some lvl ->
      node_lists s0 !! nl = Some acc ->
      lvl !! (2 * k)%nat = Some l ->
      (forall st' s',
          let p := parent l (default l (lvl !! (2 * k + 1)%nat)) in
          updated s0 nl (acc ++ [p]) s' ->
          hashed s' = hashed s0 ++ [hash_input p] ->
          Q0 st' s') ->
      wp (body cur nl (2 * Z.of_nat k) st0) s0 E Q0) ->
  cur <> nl ->
  node_lists s !! cur = Some lvl ->
  node_lists s !! nl = Some [] ->
  (forall st' s',
      updated s nl (pair_level lvl) s' ->
      hashed s' = hashed s ++ map hash_input (pair_level lvl) ->
      Q st' s') ->
  wp (for_each (range 0 (len lvl) 2) (body cur nl) st) s E Q.
Proof.
  intros Hbody Hne Hcur Hnl HQ.
  eapply wp_mono;
    [apply (wp_for_each
              (fun k (_ : St) s' =>
                 updated s nl (take k (pair_level lvl)) s' /\
                 hashed s' = hashed s ++ map hash_input (take k (pair_level lvl))))
    |done|].
  - split; [|by rewrite app_nil_r]. split_and!; [done..|]. by rewrite insert_id.
  - intros k i st0 s1 Hk [(Ht & Hs & Hn) Hlog].
    apply range_pairs_lookup in Hk as [-> Hk].
    destruct (pair_level_source lvl k Hk) as [l Hl].
    pose proof (pair_level_lookup lvl k l Hl) as Hp.
    eapply Hbody; [| |done|].
    + by rewrite Hn, lookup_insert_ne.
    + by rewrite Hn, lookup_insert_eq.
    + intros st' s2 p (Ht2 & Hs2 & Hn2) Hlog2.
      rewrite (take_S_r _ _ _ Hp). split; [split_and!|].
      * congruence.
      * congruence.
      * by rewrite Hn2, Hn, insert_insert_eq.
      * by rewrite Hlog2, Hlog, map_app, app_assoc.
  - intros st' s' [Hs' Hlog]. rewrite range_pairs, length_map, length_seq in Hs', Hlog.
    rewrite firstn_all in Hs', Hlog. by apply HQ.
Qed.

Lemma rounds_inputs_step fuel lvl :
  (1 < length lvl)%nat ->
  rounds_inputs (S fuel) lvl
  = map hash_input (pair_level lvl) ++ rounds_inputs fuel (pair_level lvl).
Proof. intros Hn. cbn [rounds_inputs]. by destruct (Nat.ltb_spec 1 (length lvl)); [|lia]. Qed.

Lemma rounds_inputs_stop fuel lvl :
  (length lvl <= 1)%nat -> rounds_inputs fuel lvl = [].
Proof.
  intros Hn. destruct fuel; [done|]. cbn [rounds_inputs].
  by destruct (Nat.ltb_spec 1 (length lvl)); [lia|].
Qed.

(** The rounds over [n] nodes hash at least [n - 1] strings. *)
Lemma rounds_inputs_length fuel : forall lvl,
  (length lvl <= S fuel)%nat ->
  (length lvl - 1 <= length (rounds_inputs fuel lvl))%nat.
Proof.
  induction fuel as [|fuel IH]; intros lvl Hlen; [lia|].
  destruct (decide (1 < length lvl)%nat) as [Hlt|Hge]; [|lia].
  rewrite rounds_inputs_step, length_app, length_map by done.
  pose proof (pair_level_shorter lvl Hlt).
  pose proof (IH (pair_level lvl) ltac:(lia)) as Hrec.
  rewrite pair_level_length in *.
  pose proof (Nat.div_mod_eq (length lvl + 1) 2).
  pose proof (Nat.mod_upper_bound (length lvl + 1) 2). lia.
Qed.

Lemma wp_build_loop_log fuel : forall cur lvl s E (Q : loc -> store -> Prop),
  node_lists s !! cur = Some lvl ->
  (length lvl <= S fuel)%nat ->
  (forall top s',
      extends s s' -> node_lists s' !! top = Some (top_level fuel lvl) ->
      hashed s' = hashed s ++ rounds_inputs fuel lvl ->
      Q top s') ->
  wp (build_loop fuel cur) s E Q.
Proof.
  induction fuel as [|fuel IH]; intros cur lvl s E Q Hcur Hlen HQ;
    cbn [build_loop];
    apply wp_bind, wp_list_len; rewrite Hcur; unfold len;
    destruct (Z.ltb_spec 1 (Z.of_nat (length lvl))) as [Hlt|Hge];
    try lia.
  - apply wp_ret, HQ; [apply extends_refl|done|by rewrite app_nil_r].
  - apply wp_bind, wp_new_list. intros nl Hnl.
    assert (cur <> nl) as Hne by congruence.
    apply wp_bind. unfold pairing_round. apply wp_bind, wp_list_len. simpl.
    rewrite lookup_insert_ne by done. rewrite Hcur.
    eapply (wp_round_log build_pair); [|done| | |]; simpl.
    { intros k l acc [] s0 Q0 ? ? ? HQ0.
      eapply wp_build_pair_log; [done..|]. intros s' p. apply HQ0. }
    { by rewrite lookup_insert_ne. }
    { by rewrite lookup_insert_eq. }
    intros [] s1 Hs1 Hlog1. simpl in Hlog1. eapply IH.
    + destruct Hs1 as (_ & _ & ->). simpl. by rewrite lookup_insert_eq.
    + pose proof (pair_level_shorter lvl). lia.
    + intros top s2 Hext Htop Hlog2. apply HQ.
      * eapply extends_trans; [|done]. by eapply fresh_list_extends.
      * rewrite top_level_step by lia. done.
      * by rewrite Hlog2, Hlog1, rounds_inputs_step, app_assoc by lia.
  - apply wp_ret, HQ; [apply extends_refl| |].
    + rewrite top_level_stop by lia. done.
    + by rewrite rounds_inputs_stop, app_nil_r by lia.
Qed.

Lemma wp_proof_loop_log fuel : forall cur lvl st s E
    (Q : list (string * bool) -> store -> Prop),
  node_lists s !! cur = Some lvl ->
  (length lvl <= S fuel)%nat ->
  (forall p s', hashed s' = hashed s ++ rounds_inputs fuel lvl -> Q p s') ->
  wp (proof_loop fuel cur st) s E Q.
Proof.
  induction fuel as [|fuel IH]; intros cur lvl st s E Q Hcur Hlen HQ;
    cbn [proof_loop];
    apply wp_bind, wp_list_len; rewrite Hcur; unfold len;
    destruct (Z.ltb_spec 1 (Z.of_nat (length lvl))) as [Hlt|Hge];
    try lia.
  - apply wp_ret, HQ. by rewrite app_nil_r.
  - apply wp_bind, wp_new_list. intros nl Hnl.
    assert (cur <> nl) as Hne by congruence.
    apply wp_bind, wp_list_len. simpl.
    rewrite lookup_insert_ne by done. rewrite Hcur.
    apply wp_bind.
    eapply (wp_round_log proof_pair); [|done| | |]; simpl.
    { intros k l acc st0 s0 Q0 ? ? ? HQ0.
      eapply wp_proof_pair_log; [done..|]. intros st' s' p. apply HQ0. }
    { by rewrite lookup_insert_ne. }
    { by rewrite lookup_insert_eq. }
    intros st' s1 Hs1 Hlog1. simpl in Hlog1. eapply IH.
    + destruct Hs1 as (_ & _ & ->). simpl. by rewrite lookup_insert_eq.
    + pose proof (pair_level_shorter lvl). lia.
    + intros p s2 Hlog2. apply HQ.
      by rewrite Hlog2, Hlog1, rounds_inputs_step, app_assoc by lia.
  - apply wp_ret, HQ. by rewrite rounds_inputs_stop, app_nil_r by lia.
Qed.

Lemma wp_build_tree_log self t blocks s E (Q : unit -> store -> Prop) :
  trees s !! self = Some t ->
  str_lists s !! data_blocks t = Some blocks ->
  blocks <> [] ->
  (forall s',
      built s self (data_blocks t) blocks s' ->
      hashed s'
      = hashed s ++ blocks ++ rounds_inputs (length blocks) (map leaf_of blocks) ->
      Q tt s') ->
  wp (build_tree self) s E Q.
Proof.
  intros Hself Hd Hne HQ. unfold build_tree.
  apply wp_bind, wp_get_data_blocks. rewrite Hself.
  apply wp_bind, wp_read_strs. rewrite Hd.
  apply wp_bind, wp_new_list. intros ls Hls.
  apply wp_bind. eapply wp_leaf_loop_log; simpl; [by rewrite lookup_insert_eq|].
  intros s1 Hs1 Hlog1. pose proof (fresh_list_extends _ _ _ _ Hls Hs1) as Hext1.
  destruct Hs1 as (Ht1 & Hstr1 & Hn1). simpl in *.
  apply wp_bind, wp_set_leaves. rewrite Ht1, Hself.
  apply wp_bind, wp_get_leaves. simpl. rewrite lookup_insert_eq. simpl.
  apply wp_bind, wp_list_len. simpl. rewrite Hn1, lookup_insert_eq.
  unfold len. rewrite Nat2Z.id, length_map.
  destruct (top_level_root blocks Hne) as [r Hr].
  apply wp_bind. eapply wp_build_loop_log; simpl.
  { by rewrite lookup_insert_eq. }
  { rewrite length_map. lia. }
  intros top s2 (Ht2 & Hstr2 & Hn2) Htop Hlog2. simpl in *. rewrite Hr in Htop.
  apply wp_bind. eapply wp_list_getitem; [done..|].
  apply wp_set_root. rewrite Ht2, lookup_insert_eq. simpl.
  apply HQ; simpl.
  - exists ls, r. simpl. split_and!.
    + congruence.
    + by rewrite insert_insert_eq.
    + intros l xs Hl. apply Hn2. rewrite <- Hn1. by apply Hext1.
    + apply Hn2. by rewrite lookup_insert_eq.
    + done.
  - by rewrite Hlog2, Hlog1, app_assoc.
Qed.

Lemma MerkleTree__init__log s d blocks :
  str_lists s !! d = Some blocks -> blocks <> [] ->
  exists self s',
    MerkleTree__init__ d s = (Ok self, s') /\
    built s self d blocks s' /\
    hashed s'
    = hashed s ++ blocks ++ rounds_inputs (length blocks) (map leaf_of blocks).
Proof.
  intros Hd Hne. apply wp_returns. unfold MerkleTree__init__.
  apply wp_bind, wp_read_strs. rewrite Hd.
  destruct blocks as [|b bs]; [done|].
  apply wp_bind, wp_new_list. intros empty Hempty.
  apply wp_bind, wp_new_tree. intros self Hself. simpl in *.
  apply wp_bind.
  eapply wp_build_tree_log; simpl; [by rewrite lookup_insert_eq|done..|].
  intros s' (ls & r & Hstr & Ht & Hn & Hls & Hr) Hlog. simpl in *.
  apply wp_ret. split; [|done]. exists ls, r. split_and!; [done| |  |done..].
  - by rewrite Ht, insert_insert_eq.
  - intros l xs Hl. apply Hn. rewrite lookup_insert_ne; [done|congruence].
Qed.

Lemma get_proof_log s self t lvl (i : Z) :
  trees s !! self = Some t ->
  node_lists s !! leaves t = Some lvl ->
  0 <= i < len lvl ->
  exists proof s',
    get_proof self i s = (Ok proof, s') /\
    hashed s' = hashed s ++ rounds_inputs (length lvl) lvl.
Proof.
  intros Hself Hlvl Hi. apply wp_returns. unfold get_proof, len in *.
  apply wp_bind. destruct (Z.ltb_spec i 0); [lia|].
  apply wp_bind, wp_get_leaves. rewrite Hself.
  apply wp_bind, wp_list_len. rewrite Hlvl. unfold len. apply wp_ret.
  destruct (Z.leb_spec (Z.of_nat (length lvl)) i); [lia|].
  apply wp_bind, wp_get_leaves. rewrite Hself.
  apply wp_bind, wp_list_len. rewrite Hlvl. unfold len. rewrite Nat2Z.id.
  eapply wp_proof_loop_log; [done|lia|]. auto.
Qed.

(** X12, cost of proof generation: [get_proof] calls the hash function on
    exactly the strings the pairing rounds of the construction hashed, in
    the same order, after the blocks themselves; they are at least
    [n - 1] for [n] blocks. *)
Theorem get_proof_repeats_pairing_hashes s d blocks (i : Z) :
  str_lists s !! d = Some blocks ->
  0 <= i < len blocks ->
  exists tree s1 proof s2 hs,
    MerkleTree__init__ d s = (Ok tree, s1) /\
    get_proof tree i s1 = (Ok proof, s2) /\
    hashed s1 = hashed s ++ blocks ++ hs /\
    hashed s2 = hashed s1 ++ hs /\
    (length blocks - 1 <= length hs)%nat.
Proof.
  intros Hd Hi. unfold len in Hi.
  destruct (MerkleTree__init__log s d blocks Hd) as (tree & s1 & Hrun & Hb & Hlog1).
  { intros ->. simpl in Hi. lia. }
  destruct (built_tree _ _ _ _ _ Hb) as (ls & r & Htree & Hls & _).
  destruct (get_proof_log s1 tree _ _ i Htree Hls) as (proof & s2 & Hproof & Hlog2).
  { unfold len. by rewrite length_map. }
  rewrite length_map in Hlog2.
  exists tree, s1, proof, s2, (rounds_inputs (length blocks) (map leaf_of blocks)).
  split_and!; [done..|].
  rewrite <- (length_map leaf_of blocks) at 1.
  apply rounds_inputs_length. rewrite length_map. lia.
Qed.

End Logs.

(** *** Soundness of proofs of full length *)
Section Soundness.
Context `{Hashlib}.
Implicit Types (lvl : list MerkleNode) (blocks : list string).








End Soundness.

(** ** The properties at concrete inputs, with SHA-256 *)

#[local] Existing Instance sha256.

(** The scenario [D = ["a", "b", "c", "d"]] of the specification: the proof
    for index 1 is [(H("a"), left), (N1, right)] and the root is
    [H(N0 + N1)]. *)
Example scenario_abcd :
  fst ((tree <- MerkleTree__init__ (H := sha256) 1 ;;
        proof <- get_proof tree 1 ;;
        r <- get_root_hash tree ;;
        ret (proof, r)) (store_of ["a"; "b"; "c"; "d"]%string))
  = Ok ([("ca978112ca1bbdcafac231b39a23dc4da786eff8147c4e72b9807785afee48bb"%string, true);
         ("d3a0f1c792ccf7f1708d5422696263e35755a86917ea76ef9242bd4a8cf4891a"%string, false)],
        Some "58c89d709329eb37285837b042ab6ff72c7c8f74de0446b091b6a0131c102cfd"%string).
Proof. vm_compute. reflexivity. Qed.

(** The scenario [D = ["x", "y", "z"]]: the proof for index 2 is
    [(H("z"), right), (N0, left)]. *)
Example scenario_xyz :
  fst ((tree <- MerkleTree__init__ (H := sha256) 1 ;;
        proof <- get_proof tree 2 ;;
        r <- get_root_hash tree ;;
        ret (proof, r)) (store_of ["x"; "y"; "z"]%string))
  = Ok ([("594e519ae499312b29433b7dd8a97ff068defcba9755b6d5d00e84c524d67b06"%string, false);
         ("80d888481399c652ab6f09cdee09a96f9f7b665b7758a573275ca76a536e5e5f"%string, true)],
        Some "69bbe6b048f021d302f922c7fa937101660312bbe7677347b81c8c5fb01fbba3"%string).
Proof. vm_compute. reflexivity. Qed.

(** Verifying with the data ["B"] in place of ["b"] fails. *)
Example scenario_tampered :
  fst ((tree <- MerkleTree__init__ (H := sha256) 1 ;;
        proof <- get_proof tree 1 ;;
        verify_proof tree "B" 1 proof
          "58c89d709329eb37285837b042ab6ff72c7c8f74de0446b091b6a0131c102cfd")
         (store_of ["a"; "b"; "c"; "d"]%string))
  = Ok false.
Proof. vm_compute. reflexivity. Qed.

Lemma proof_roundtrip_witness :
  exists tree s1 proof s2 r s3 s4,
    MerkleTree__init__ (H := sha256) 1 (store_of ["a"; "b"; "c"; "d"]%string)
    = (Ok tree, s1) /\
    get_proof tree 1 s1 = (Ok proof, s2) /\
    get_root_hash tree s2 = (Ok (Some r), s3) /\
    verify_proof tree "b" 1 proof r s3 = (Ok true, s4).
Proof.
  apply (proof_roundtrip (H := sha256) (store_of ["a"; "b"; "c"; "d"]%string)
           1%positive ["a"; "b"; "c"; "d"]%string 1 "b"%string).
  - reflexivity.
  - unfold len. simpl. lia.
  - reflexivity.
Defined.

Lemma node_hash_invariant_witness :
  exists tree s' t r ls,
    MerkleTree__init__ (H := sha256) 1 (store_of ["x"; "y"; "z"]%string)
    = (Ok tree, s') /\
    trees s' !! tree = Some t /\
    root t = Some r /\
    node_lists s' !! leaves t = Some ls /\
    ls = map (fun b => Leaf b (sha256_hexdigest b)) ["x"; "y"; "z"]%string /\
    (forall n, n ∈ ls -> node_hash_ok n) /\
    (forall n, n ∈ nodes_of r -> node_hash_ok n).
Proof.
  apply (node_hash_invariant (H := sha256) (store_of ["x"; "y"; "z"]%string)
           1%positive ["x"; "y"; "z"]%string).
  - reflexivity.
  - discriminate.
Defined.

Lemma empty_input_rejected_witness :
  MerkleTree__init__ (H := sha256) 1 (store_of [])
  = (Raise (ValueError "Cannot create Merkle tree from empty data"), store_of []).
Proof.
  apply (empty_input_rejected (H := sha256) (store_of []) 1%positive).
  reflexivity.
Defined.

Lemma index_out_of_range_witness :
  get_proof (H := sha256) 1 1 store_with_tree
  = (Raise (IndexError "Data index out of range"), store_with_tree) /\
  get_proof (H := sha256) 1 (-1) store_with_tree
  = (Raise (IndexError "Data index out of range"), store_with_tree).
Proof.
  split.
  - apply (index_out_of_range (H := sha256) store_with_tree 1%positive
             (mkTree 1 2 (Some (leaf_of (H := sha256) "a")))
             [leaf_of (H := sha256) "a"] 1).
    + vm_compute. reflexivity.
    + vm_compute. reflexivity.
    + right. unfold len. simpl. lia.
  - apply (index_out_of_range (H := sha256) store_with_tree 1%positive
             (mkTree 1 2 (Some (leaf_of (H := sha256) "a")))
             [leaf_of (H := sha256) "a"] (-1)).
    + vm_compute. reflexivity.
    + vm_compute. reflexivity.
    + left. lia.
Defined.

Lemma single_block_root_witness :
  exists tree s' t,
    MerkleTree__init__ (H := sha256) 1 (store_of ["a"]%string) = (Ok tree, s') /\
    trees s' !! tree = Some t /\
    root t = Some (Leaf "a" (sha256_hexdigest "a")) /\
    node_lists s' !! leaves t = Some [Leaf "a" (sha256_hexdigest "a")] /\
    get_root_hash tree s' = (Ok (Some (sha256_hexdigest "a")), s') /\
    hashed s' = hashed (store_of ["a"]%string) ++ ["a"%string].
Proof.
  apply (single_block_root (H := sha256) (store_of ["a"]%string) 1%positive "a"%string).
  reflexivity.
Defined.

Lemma proof_length_witness :
  exists tree s1 proof s2,
    MerkleTree__init__ (H := sha256) 1 (store_of ["a"; "b"; "c"; "d"; "e"]%string)
    = (Ok tree, s1) /\
    get_proof tree 4 s1 = (Ok proof, s2) /\
    length proof = Nat.log2_up 5 /\
    ((2 <= 5)%nat -> length proof = Nat.max 1 (Nat.log2_up 5)).
Proof.
  apply (proof_length (H := sha256) (store_of ["a"; "b"; "c"; "d"; "e"]%string)
           1%positive ["a"; "b"; "c"; "d"; "e"]%string 4).
  - reflexivity.
  - unfold len. simpl. lia.
Defined.

(** For a single block the proof is empty, while [max(1, ceil(log2(1)))]
    is 1. *)
Lemma proof_length_single_block :
  exists tree s1 s2,
    MerkleTree__init__ (H := sha256) 1 (store_of ["a"]%string) = (Ok tree, s1) /\
    get_proof tree 0 s1 = (Ok [], s2) /\
    length (@nil (string * bool)) <> Nat.max 1 (Nat.log2_up (length ["a"%string])).
Proof.
  exists 1%positive, store_with_tree, (snd (get_proof (H := sha256) 1 0 store_with_tree)).
  split_and!.
  - vm_compute. reflexivity.
  - vm_compute. reflexivity.
  - vm_compute. discriminate.
Qed.

Lemma odd_level_self_pairing_witness :
  (exists s' above,
      pairing_round 1 2 store_with_level = (Ok tt, s') /\
      node_lists s' !! 2%positive = Some above /\
      last above
      = Some (Internal (leaf_of "z") (leaf_of "z")
                (sha256_hexdigest (hash (leaf_of "z") +:+ hash (leaf_of "z"))))) /\
  (exists tree s1 t la lb lc proof s2,
      MerkleTree__init__ 1 (store_of ["x"; "y"; "z"]%string) = (Ok tree, s1) /\
      trees s1 !! tree = Some t /\
      node_lists s1 !! leaves t = Some [la; lb; lc] /\
      root t = Some (parent (parent la lb) (parent lc lc)) /\
      get_proof tree 2 s1 = (Ok ((hash lc, false) :: proof), s2)).
Proof.
  split.
  - apply (proj1 (odd_level_self_pairing (H := sha256)) store_with_level
             1%positive 2%positive
             (map leaf_of ["x"; "y"; "z"]%string) (leaf_of "z")).
    + discriminate.
    + reflexivity.
    + reflexivity.
    + reflexivity.
    + reflexivity.
  - apply (proj2 (odd_level_self_pairing (H := sha256))
             (store_of ["x"; "y"; "z"]%string) 1%positive "x" "y" "z"%string).
    reflexivity.
Defined.

(** *** The further properties at concrete inputs *)


Lemma verify_proof_binds_data_witness :
  fst (verify_proof 1 "b" 1 proof_b root_abcd (store_of [])) = Ok true /\
  ("b"%string = "b"%string \/ collision).
Proof.
  assert (fst (verify_proof 1 "b" 1 proof_b root_abcd (store_of [])) = Ok true)
    as Hverify by (vm_compute; reflexivity).
  split; [exact Hverify|].
  exact (verify_proof_binds_data 1%positive 1%positive "b"%string "b"%string 1 1
           proof_b root_abcd (store_of []) (store_of []) Hverify Hverify).
Defined.


Lemma verify_accepts_internal_node_witness :
  exists tree s1 sib is_left rest s2 r,
    MerkleTree__init__ 1 (store_of ["a"; "b"; "c"; "d"]%string) = (Ok tree, s1) /\
    get_proof tree 1 s1 = (Ok ((sib, is_left) :: rest), s2) /\
    get_root_hash tree s2 = (Ok (Some r), s2) /\
    forall self (j : Z) s3,
      fst (verify_proof self
             (if is_left then sib +:+ sha256_hexdigest "b"
              else sha256_hexdigest "b" +:+ sib) j rest r s3) = Ok true.
Proof.
  apply (verify_accepts_internal_node (store_of ["a"; "b"; "c"; "d"]%string)
           1%positive ["a"; "b"; "c"; "d"]%string 1 "b"%string).
  - reflexivity.
  - simpl. lia.
  - lia.
  - reflexivity.
Defined.

Lemma proof_sides_are_index_bits_witness :
  exists proof s',
    merkle_proof 1 4 (store_of ["a"; "b"; "c"; "d"; "e"]%string) = (Ok proof, s') /\
    forall (k : nat) sib is_left,
      proof !! k = Some (sib, is_left) -> is_left = Z.testbit 4 (Z.of_nat k).
Proof.
  apply (proof_sides_are_index_bits (store_of ["a"; "b"; "c"; "d"; "e"]%string)
           1%positive ["a"; "b"; "c"; "d"; "e"]%string 4).
  - reflexivity.
  - unfold len. simpl. lia.
Defined.

Lemma first_sibling_is_neighbour_witness :
  exists y rest s',
    merkle_proof 1 2 (store_of ["x"; "y"; "z"]%string)
    = (Ok ((sha256_hexdigest y, Z.odd 2) :: rest), s') /\
    ["x"; "y"; "z"]%string
      !! Z.to_nat (if Z.odd 2 then 2 - 1
                   else if 2 + 1 <? len ["x"; "y"; "z"]%string then 2 + 1 else 2)
    = Some y.
Proof.
  apply (first_sibling_is_neighbour (store_of ["x"; "y"; "z"]%string)
           1%positive ["x"; "y"; "z"]%string 2).
  - reflexivity.
  - simpl. lia.
  - unfold len. simpl. lia.
Defined.

Lemma root_of_concatenation_witness :
  exists r1 r2 : string,
    fst (merkle_root 1 (store_of ["a"; "b"]%string)) = Ok (Some r1) /\
    fst (merkle_root 5 (store_at_5 ["c"; "d"]%string)) = Ok (Some r2) /\
    fst (merkle_root 1 (store_of (["a"; "b"]%string ++ ["c"; "d"]%string)))
    = Ok (Some (sha256_hexdigest (r1 +:+ r2))).
Proof.
  apply (root_of_concatenation 1 (store_of ["a"; "b"]%string)
           (store_at_5 ["c"; "d"]%string)
           (store_of (["a"; "b"]%string ++ ["c"; "d"]%string))
           1%positive 5%positive 1%positive ["a"; "b"]%string ["c"; "d"]%string);
    reflexivity.
Defined.

Lemma root_repeats_last_block_witness :
  exists r : string,
    fst (merkle_root 1 (store_of (["x"; "y"]%string ++ ["z"]%string))) = Ok (Some r) /\
    fst (merkle_root 5 (store_at_5 (["x"; "y"]%string ++ ["z"; "z"]%string))) = Ok (Some r).
Proof.
  apply (root_repeats_last_block (store_of (["x"; "y"]%string ++ ["z"]%string))
           (store_at_5 (["x"; "y"]%string ++ ["z"; "z"]%string))
           1%positive 5%positive ["x"; "y"]%string "z"%string).
  - reflexivity.
  - reflexivity.
  - reflexivity.
  - discriminate.
Defined.

Lemma tree_is_perfect_witness :
  exists tree s' t r,
    MerkleTree__init__ 1 (store_of ["a"; "b"; "c"; "d"; "e"]%string) = (Ok tree, s') /\
    trees s' !! tree = Some t /\
    root t = Some r /\
    perfect (Nat.log2_up (length ["a"; "b"; "c"; "d"; "e"]%string)) r /\
    ["a"; "b"; "c"; "d"; "e"]%string `prefix_of` leaf_data r.
Proof.
  apply (tree_is_perfect (store_of ["a"; "b"; "c"; "d"; "e"]%string) 1%positive
           ["a"; "b"; "c"; "d"; "e"]%string).
  - reflexivity.
  - discriminate.
Defined.

Lemma results_depend_on_blocks_only_witness :
  fst (merkle_root 1 (store_of ["x"; "y"; "z"]%string))
  = fst (merkle_root 5 (store_at_5 ["x"; "y"; "z"]%string)) /\
  fst (merkle_proof 1 2 (store_of ["x"; "y"; "z"]%string))
  = fst (merkle_proof 5 2 (store_at_5 ["x"; "y"; "z"]%string)).
Proof.
  apply (results_depend_on_blocks_only (store_of ["x"; "y"; "z"]%string)
           (store_at_5 ["x"; "y"; "z"]%string) 1%positive 5%positive
           ["x"; "y"; "z"]%string 2); reflexivity.
Defined.


Lemma get_proof_repeats_pairing_hashes_witness :
  exists tree s1 proof s2 hs,
    MerkleTree__init__ 1 (store_of ["x"; "y"; "z"]%string) = (Ok tree, s1) /\
    get_proof tree 0 s1 = (Ok proof, s2) /\
    hashed s1 = hashed (store_of ["x"; "y"; "z"]%string) ++ ["x"; "y"; "z"]%string ++ hs /\
    hashed s2 = hashed s1 ++ hs /\
    (length ["x"; "y"; "z"]%string - 1 <= length hs)%nat.
Proof.
  apply (get_proof_repeats_pairing_hashes (store_of ["x"; "y"; "z"]%string)
           1%positive ["x"; "y"; "z"]%string 0).
  - reflexivity.
  - unfold len. simpl. lia.
Defined.

